(** * GeeRPC: registry, discovery, client and server cores

    A shallow embedding of the Go sources of the RPC framework and the
    properties of its specification that can be settled on it.  The
    modules follow the source files:
    - [Registry]: registry/registry.go;
    - [Discovery]: package xclient, [MultiServersDiscovery];
    - [XClient]: xclient/xclient.go;
    - [Dial] and [Client]: package geerpc, the client ([Call], [Client],
      [dialTimeout], [NewHTTPClient]);
    - [Server]: package geerpc, the server ([readRequest], [serveCodec],
      [handleRequest], [findService]).

    Conventions.
    - [time.Time] and [time.Duration] are [Z] numbers of nanoseconds;
      [Duration] values are signed 64-bit.
    - Go maps are [gmap]s.  The order of a [range] over a map is not
      fixed by the language, so loops over a map take the visiting order
      as an argument.
    - Pointers to mutable records ([*Client], [*Call]) are indices into
      an explicit store.
    - Calls into the network, the codec and the scheduler are inputs of
      the model: each function takes the result of the I/O it performs
      or the outcome of the race it runs. *)

From Stdlib Require Import ZArith Lia Ascii String.
From stdpp Require Import gmap strings list fin_maps.

Local Open Scope string_scope.
Local Open Scope Z_scope.

(** ** Durations *)

Definition minDuration : Z := - 2 ^ 63.
Definition maxDuration : Z := 2 ^ 63 - 1.

(** [time.Time.Sub]: the difference of two instants, saturated to the
    range of [Duration]. *)
Definition Sub (t u : Z) : Z :=
  if maxDuration <? t - u then maxDuration
  else if t - u <? minDuration then minDuration
  else t - u.

(** ** registry/registry.go *)

Module Registry.

Record ServerItem := { Addr : string; start : Z }.

Record GeeRegistry := {
  timeout : Z;
  servers : gmap string ServerItem
}.

Definition NewGeeRegistry (timeout : Z) : GeeRegistry :=
  {| timeout := timeout; servers := ∅ |}.

(** [putServer], called at instant [now]. *)
Definition putServer (now : Z) (addr : string) (r : GeeRegistry) : GeeRegistry :=
  match servers r !! addr with
  | Some server =>
      {| timeout := timeout r;
         servers := <[addr := {| Addr := Addr server; start := now |}]> (servers r) |}
  | None =>
      {| timeout := timeout r;
         servers := <[addr := {| Addr := addr; start := now |}]> (servers r) |}
  end.

(** The body of the [for _, server := range r.servers] loop of
    [aliveServers].  [order] is the order in which the range visits the
    keys; a key deleted before it is reached is not produced. *)
Fixpoint aliveServers_range (nowTime tmo : Z) (order : list string)
    (m : gmap string ServerItem) (alive : list string)
    : list string * gmap string ServerItem :=
  match order with
  | [] => (alive, m)
  | k :: rest =>
      match m !! k with
      | None => aliveServers_range nowTime tmo rest m alive
      | Some server =>
          if tmo <=? Sub nowTime (start server)
          then aliveServers_range nowTime tmo rest (delete (Addr server) m) alive
          else aliveServers_range nowTime tmo rest m (alive ++ [Addr server])
      end
  end.

Definition aliveServers (order : list string) (nowTime : Z) (r : GeeRegistry)
    : list string * GeeRegistry :=
  let '(alive, m) := aliveServers_range nowTime (timeout r) order (servers r) [] in
  (alive, {| timeout := timeout r; servers := m |}).

(** [strings.Join]. *)
Definition Join (elems : list string) (sep : string) : string :=
  String.concat sep elems.

Record Request := {
  Method : string;
  X_Geerpc_Server : string      (* "" when the header is not set *)
}.

Record Response := {
  StatusCode : Z;
  X_Geerpc_Servers : option string
}.

Definition StatusOK : Z := 200.
Definition StatusInternalServerError : Z := 500.
Definition StatusMethodNotAllowed : Z := 405.

Definition ServeHTTP (order : list string) (now : Z) (req : Request)
    (r : GeeRegistry) : Response * GeeRegistry :=
  if String.eqb (Method req) "GET" then
    let '(alive, r') := aliveServers order now r in
    ({| StatusCode := StatusOK; X_Geerpc_Servers := Some (Join alive ",") |}, r')
  else if String.eqb (Method req) "POST" then
    let addr := X_Geerpc_Server req in
    if String.eqb addr "" then
      ({| StatusCode := StatusInternalServerError; X_Geerpc_Servers := None |}, r)
    else
      ({| StatusCode := StatusOK; X_Geerpc_Servers := None |}, putServer now addr r)
  else
    ({| StatusCode := StatusMethodNotAllowed; X_Geerpc_Servers := None |}, r).

(** Every entry is stored under its own address: what [putServer]
    maintains and the [delete(r.servers, server.Addr)] of [aliveServers]
    relies on. *)
Definition keyed (m : gmap string ServerItem) : Prop :=
  ∀ k it, m !! k = Some it → Addr it = k.

(** [order] is a visiting order of the whole map: each key once. *)
Definition range_order (order : list string) (m : gmap string ServerItem) : Prop :=
  NoDup order ∧ ∀ k, k ∈ order ↔ is_Some (m !! k).

Definition expired (nowTime tmo : Z) (it : ServerItem) : bool :=
  tmo <=? Sub nowTime (start it).

End Registry.

(** ** Outcomes of a Go function that may fail or panic *)

Inductive result (A : Type) : Type :=
  | Ok (a : A)
  | Err (e : string)
  | Panic (msg : string).
Arguments Ok {A} a.
Arguments Err {A} e.
Arguments Panic {A} msg.

(** Signed 64-bit wrap-around of Go's [int]. *)
Definition wrap_int (z : Z) : Z := (z + 2 ^ 63) mod 2 ^ 64 - 2 ^ 63.

(** Unsigned 64-bit wrap-around of [uint64]. *)
Definition wrap_uint64 (z : Z) : Z := z mod 2 ^ 64.

(** Indexing a slice [s[i]]: a run-time panic out of range. *)
Definition index_slice (s : list string) (i : Z) : result string :=
  if (0 <=? i) && (i <? Z.of_nat (length s)) then
    match s !! Z.to_nat i with
    | Some x => Ok x
    | None => Panic "index out of range"
    end
  else Panic "index out of range".

(** ** Package xclient: discovery *)

Module Discovery.

Definition SelectMode := Z.
Definition RandomSelect : SelectMode := 0.
Definition RoundRobinSelect : SelectMode := 1.

Record MultiServersDiscovery := {
  servers : list string;
  index : Z
}.

(** [rand.Rand.Intn]: panics unless [0 < n]; [draw] is the non-negative
    number the generator produces for this call. *)
Definition Intn (draw : Z) (n : Z) : result Z :=
  if n <=? 0 then Panic "invalid argument to Intn" else Ok (draw mod n).

Definition len (s : list string) : Z := Z.of_nat (length s).

Definition Get (draw : Z) (mode : SelectMode) (m : MultiServersDiscovery)
    : result string * MultiServersDiscovery :=
  if mode =? RandomSelect then
    match Intn draw (len (servers m)) with
    | Ok i => (index_slice (servers m) i, m)
    | Err e => (Err e, m)
    | Panic msg => (Panic msg, m)
    end
  else if mode =? RoundRobinSelect then
    if len (servers m) =? 0 then (Panic "integer divide by zero", m)
    else
      let m' := {| servers := servers m;
                   index := Z.rem (wrap_int (index m + 1)) (len (servers m)) |} in
      (index_slice (servers m') (index m'), m')
  else (Err "invalid server", m).

Definition GetAll (m : MultiServersDiscovery) : result (list string) :=
  Ok (servers m).

End Discovery.

(** ** xclient/xclient.go *)

Module XClient.

(** The part of [geerpc.Client] that [dial] looks at. *)
Record Client := {
  closing : bool;     (* user has called Close *)
  shutdown : bool     (* server has told us to stop *)
}.

(** Modelled from the spec: [Client.IsAvailable], which is not among the
    sources; "true iff neither closing nor shutdown". *)
Definition IsAvailable (c : Client) : bool :=
  negb (closing c) && negb (shutdown c).

(** Modelled from the spec: [Client.Close], which is not among the
    sources; "idempotent; sets closing, closes the codec". *)
Definition Close (c : Client) : Client :=
  {| closing := true; shutdown := shutdown c |}.

(** A [*geerpc.Client]: [None] is [nil], [Some p] points into the store. *)
Abbreviation ptr := (option nat).

Record XClient := {
  store : list Client;                (* the clients allocated so far *)
  clients : gmap string ptr           (* the cache, by address *)
}.

Definition NewXClient : XClient := {| store := []; clients := ∅ |}.

(** [dial].  [xdial] is what [geerpc.XDial(rpcAddr, xc.opt)] returns when
    it is called: an error, or the state of the client it opened
    ([Ok None] is a nil client with a nil error). *)
Definition dial (xdial : result (option Client)) (rpcAddr : string)
    (xc : XClient) : result ptr * XClient :=
  let c : ptr := default None (clients xc !! rpcAddr) in
  let ok := bool_decide (is_Some (clients xc !! rpcAddr)) in
  (* if ok && c.IsAvailable() { _ = c.Close(); c = nil } *)
  let after_check : result (ptr * XClient) :=
    if ok then
      match c with
      | None => Panic "nil pointer dereference"
      | Some p =>
          match store xc !! p with
          | None => Panic "dangling client"
          | Some cl =>
              if IsAvailable cl
              then Ok (None, {| store := <[p := Close cl]> (store xc);
                                clients := clients xc |})
              else Ok (c, xc)
          end
      end
    else Ok (c, xc) in
  match after_check with
  | Err e => (Err e, xc)
  | Panic msg => (Panic msg, xc)
  | Ok (Some p, xc1) => (Ok (Some p), xc1)
  | Ok (None, xc1) =>
      match xdial with
      | Err e => (Err e, xc1)
      | Panic msg => (Panic msg, xc1)
      | Ok None =>
          (Ok None, {| store := store xc1;
                       clients := <[rpcAddr := None]> (clients xc1) |})
      | Ok (Some cl) =>
          let p := length (store xc1) in
          (Ok (Some p), {| store := store xc1 ++ [cl];
                           clients := <[rpcAddr := Some p]> (clients xc1) |})
      end
  end.

End XClient.

(** ** Package geerpc, the client: connection establishment *)

Module Dial.

Definition connected : string := "200 connected to Gee RPC".
Definition defaultRPCPath : string := "/_geeprc_".

(** An opened client, as far as connection set-up is concerned: the codec
    it was built with. *)
Record Client := { codecType : string }.

(** What a function of type [newClientFunc] returns:
    [(client *Client, err error)], either of which may be nil. *)
Record clientResult := {
  client : option Client;
  err : option string
}.

(** [NewClient].  [registered] are the names in [codec.NewCodecFuncMap];
    [encode] is the result of writing the option frame to the connection. *)
Definition NewClient (registered : list string) (encode : option string)
    (CodecType : string) : clientResult :=
  if bool_decide (CodecType ∈ registered) then
    match encode with
    | Some e => {| client := None; err := Some e |}
    | None => {| client := Some {| codecType := CodecType |}; err := None |}
    end
  else {| client := None; err := Some ("unknown codec " ++ CodecType) |}.

(** The two results of [http.ReadResponse]: a response (nil or with its
    status line) and an error (nil or with its text). *)
Record HTTPResponse := { Status : string }.

(** [NewHTTPClient].  [resp] and [rerr] are what [http.ReadResponse]
    returned; [handshake] is what [NewClient(conn, opt)] returns if it is
    called. *)
Definition NewHTTPClient (resp : option HTTPResponse) (rerr : option string)
    (handshake : clientResult) : result clientResult :=
  let connected_ok :=
    match rerr, resp with
    | None, Some r => Ok (String.eqb (Status r) connected)
    | None, None => Panic "nil pointer dereference"
    | Some _, _ => Ok false
    end in
  match connected_ok with
  | Err e => Err e
  | Panic msg => Panic msg
  | Ok true => Ok handshake
  | Ok false =>
      match rerr with
      | Some _ =>
          (* err = errors.New("unexpected HTTP response: " + resp.Status) *)
          match resp with
          | Some r =>
              Ok {| client := None;
                    err := Some ("unexpected HTTP response: " ++ Status r) |}
          | None => Panic "nil pointer dereference"
          end
      | None => Ok {| client := None; err := None |}
      end
  end.

(** When the inner goroutine of [dialTimeout] delivers the result of
    [f(conn, opt)], measured from the moment the dial returned. *)
Inductive handshake :=
  | Never
  | After (t : Z) (res : clientResult).

Inductive dialOutcome :=
  | Returns (res : clientResult) (connClosed : bool)
  | BlocksForever.

(** The deferred function: the connection is closed iff the returned
    error is not nil. *)
Definition returning (res : clientResult) : dialOutcome :=
  Returns res (bool_decide (is_Some (err res))).

Section dialTimeout.

(** [time.Duration.String], the [%s] rendering of a duration. *)
Variable DurationString : Z -> string.

Definition connectTimeoutError (d : Z) : string :=
  "rpc client: connect timeout: expect within " ++ DurationString d.

(** [dialTimeout].  [dialed] is the error of [net.DialTimeout] ([None]:
    a connection was opened); [hs] is the behaviour of [f(conn, opt)];
    [timerFirst] decides the [select] when both channels are ready at the
    same instant. *)
Definition dialTimeout (dialed : option string) (hs : handshake)
    (timerFirst : bool) (ConnectTimeout : Z) : dialOutcome :=
  match dialed with
  | Some e => Returns {| client := None; err := Some e |} false
  | None =>
      if ConnectTimeout =? 0 then
        match hs with
        | Never => BlocksForever
        | After _ res => returning res
        end
      else
        let expired :=
          returning {| client := None;
                       err := Some (connectTimeoutError ConnectTimeout) |} in
        match hs with
        | Never => expired
        | After t res =>
            if t <? ConnectTimeout then returning res
            else if ConnectTimeout <? t then expired
            else if timerFirst then expired else returning res
        end
  end.

End dialTimeout.

End Dial.

(** ** Package codec: the header *)

Module Codec.

Record Header := {
  ServiceMethod : string;
  Seq : Z;
  Error : string
}.

Definition with_Error (e : string) (h : Header) : Header :=
  {| ServiceMethod := ServiceMethod h; Seq := Seq h; Error := e |}.

End Codec.

(** ** Package geerpc, the client: call multiplexing *)

Module Client.

Import Codec.

(** A buffered [chan *Call]: its capacity and the calls waiting in it. *)
Record Chan := { cap : nat; buf : list nat }.

(** A [Call].  [Args] and [Reply] hold the encoded value; [Reply] is the
    object [Call.Reply] points to. *)
Record Call := {
  Call_Seq : Z;
  ServerMethod : string;
  Args : string;
  Reply : string;
  Call_Error : option string;
  Done : Chan
}.

(** What the client does on its codec and on the [Done] channels. *)
Inductive action :=
  | Write (h : Header) (args : string)
  | ReadHeader
  | ReadBody (into : option nat)     (* [nil], or the [Reply] of a call *)
  | Signal (p : nat).                (* [call.Done <- call] *)

(** A [Client].  [calls] is the store of the [Call]s allocated so far: a
    [*Call] is an index into it.  [sending] is the holder of the
    [sending] mutex: the call whose [send] is in progress. *)
Record Client := {
  seq : Z;
  pending : gmap Z nat;
  closing : bool;
  shutdown : bool;
  sending : option nat;
  calls : list Call;
  trace : list action
}.

(** The client [NewClient] builds. *)
Definition NewClient : Client :=
  {| seq := 0; pending := ∅; closing := false; shutdown := false;
     sending := None; calls := []; trace := [] |}.

Definition set_seq (n : Z) (c : Client) : Client :=
  {| seq := n; pending := pending c; closing := closing c;
     shutdown := shutdown c; sending := sending c; calls := calls c;
     trace := trace c |}.

Definition set_pending (m : gmap Z nat) (c : Client) : Client :=
  {| seq := seq c; pending := m; closing := closing c;
     shutdown := shutdown c; sending := sending c; calls := calls c;
     trace := trace c |}.

Definition set_shutdown (b : bool) (c : Client) : Client :=
  {| seq := seq c; pending := pending c; closing := closing c;
     shutdown := b; sending := sending c; calls := calls c;
     trace := trace c |}.

Definition set_sending (o : option nat) (c : Client) : Client :=
  {| seq := seq c; pending := pending c; closing := closing c;
     shutdown := shutdown c; sending := o; calls := calls c;
     trace := trace c |}.

Definition set_calls (l : list Call) (c : Client) : Client :=
  {| seq := seq c; pending := pending c; closing := closing c;
     shutdown := shutdown c; sending := sending c; calls := l;
     trace := trace c |}.

Definition log (a : action) (c : Client) : Client :=
  {| seq := seq c; pending := pending c; closing := closing c;
     shutdown := shutdown c; sending := sending c; calls := calls c;
     trace := trace c ++ [a] |}.

(** Updates of the call [p] points to. *)
Definition update_call (f : Call -> Call) (p : nat) (c : Client) : Client :=
  match calls c !! p with
  | Some call => set_calls (<[p := f call]> (calls c)) c
  | None => c
  end.

Definition with_Seq (s : Z) (call : Call) : Call :=
  {| Call_Seq := s; ServerMethod := ServerMethod call; Args := Args call;
     Reply := Reply call; Call_Error := Call_Error call; Done := Done call |}.

Definition with_Call_Error (e : string) (call : Call) : Call :=
  {| Call_Seq := Call_Seq call; ServerMethod := ServerMethod call;
     Args := Args call; Reply := Reply call; Call_Error := Some e;
     Done := Done call |}.

Definition with_Reply (v : string) (call : Call) : Call :=
  {| Call_Seq := Call_Seq call; ServerMethod := ServerMethod call;
     Args := Args call; Reply := v; Call_Error := Call_Error call;
     Done := Done call |}.

Definition with_buf (b : list nat) (call : Call) : Call :=
  {| Call_Seq := Call_Seq call; ServerMethod := ServerMethod call;
     Args := Args call; Reply := Reply call; Call_Error := Call_Error call;
     Done := {| cap := cap (Done call); buf := b |} |}.

(** [call.done()]: [call.Done <- call].  [None]: the channel is full and
    the send blocks. *)
Definition done (p : nat) (c : Client) : option Client :=
  match calls c !! p with
  | Some call =>
      if (length (buf (Done call)) <? cap (Done call))%nat
      then Some (log (Signal p)
                   (update_call (with_buf (buf (Done call) ++ [p])) p c))
      else None
  | None => None
  end.

Definition registerCall (p : nat) (c : Client) : Z * Client :=
  let s := seq c in
  let c := set_seq (wrap_uint64 (seq c + 1)) c in
  let c := set_pending (<[s := p]> (pending c)) c in
  (s, update_call (with_Seq s) p c).

Definition removeCall (s : Z) (c : Client) : option nat * Client :=
  match pending c !! s with
  | None => (None, c)
  | Some p => (Some p, set_pending (delete s (pending c)) c)
  end.

(** The loop of [terminateCalls] over the pending calls. *)
Fixpoint terminateCalls_range (e : string) (ps : list (Z * nat)) (c : Client)
    : option Client :=
  match ps with
  | [] => Some c
  | (_, p) :: rest =>
      match done p (update_call (with_Call_Error e) p c) with
      | Some c' => terminateCalls_range e rest c'
      | None => None
      end
  end.

(** [terminateCalls], once it holds both mutexes.  The loop touches only
    the call it visits, so the order of the range is immaterial; it is
    the order of [map_to_list]. *)
Definition terminateCalls (e : string) (c : Client) : option Client :=
  terminateCalls_range e (map_to_list (pending c)) (set_shutdown true c).

Inductive headerRead := HeaderErr (e : string) | HeaderOk (h : Header).
Inductive bodyRead := BodyErr (e : string) | BodyOk (v : string).

(** What a step of the client leads to. *)
Inductive outcome :=
  | Next (c : Client)
  | Blocks                      (* a send on a full [Done] channel *)
  | Panics (msg : string).

Definition next (o : option Client) : outcome :=
  match o with Some c => Next c | None => Blocks end.

(** One pass through the loop of [receive].  [hr] is the result of
    [ReadHeader] and [br] that of the [ReadBody] that follows.  Once
    [shutdown] is set the loop has returned.  On a header error the pass
    needs the [sending] mutex for [terminateCalls]; it waits while a send
    holds it. *)
Definition receive (hr : headerRead) (br : bodyRead) (c : Client) : outcome :=
  if shutdown c then Next c
  else
    match hr with
    | HeaderErr e =>
        match sending c with
        | Some _ => Next c
        | None => next (terminateCalls e (log ReadHeader c))
        end
    | HeaderOk h =>
        match removeCall (Seq h) (log ReadHeader c) with
        | (None, c) => Next (log (ReadBody None) c)
        | (Some p, c) =>
            if negb (String.eqb (Error h) "") then
              next (done p (log (ReadBody None)
                              (update_call (with_Call_Error (Error h)) p c)))
            else
              let c := log (ReadBody (Some p)) c in
              match br with
              | BodyOk v => next (done p (update_call (with_Reply v) p c))
              | BodyErr e =>
                  next (done p (update_call
                                  (with_Call_Error ("reading body " ++ e)) p c))
              end
        end
    end.

(** [Go] up to the point where [send] has registered the call and is
    about to write: [done] is the capacity of the channel passed in
    ([None] for a nil channel); the channel serves this call alone.  The
    caller waits while another send holds the [sending] mutex. *)
Definition Go (serviceMethod args reply : string) (done : option nat)
    (c : Client) : outcome :=
  match done with
  | Some O => Panics "rpc client: done channel is unbuffered"
  | _ =>
      match sending c with
      | Some _ => Next c
      | None =>
          let p := length (calls c) in
          let call := {| Call_Seq := seq c; ServerMethod := serviceMethod;
                         Args := args; Reply := reply; Call_Error := None;
                         Done := {| cap := default 10%nat done; buf := [] |} |} in
          let c := set_calls (calls c ++ [call]) c in
          let c := set_sending (Some p) c in
          Next (snd (registerCall p c))
      end
  end.

(** The rest of [send]: [cc.Write] returns [werr], and the mutex is
    released. *)
Definition send_written (werr : option string) (c : Client) : outcome :=
  match sending c with
  | None => Next c
  | Some p =>
      match calls c !! p with
      | None => Next c
      | Some call =>
          let s := Call_Seq call in
          let c := log (Write {| ServiceMethod := ServerMethod call;
                                 Seq := s; Error := "" |} (Args call)) c in
          match werr with
          | None => Next (set_sending None c)
          | Some e =>
              match removeCall s c with
              | (None, c) => Next (set_sending None c)
              | (Some q, c) =>
                  match done q (update_call (with_Call_Error e) q c) with
                  | Some c => Next (set_sending None c)
                  | None => Blocks
                  end
              end
          end
      end
  end.

(** [Call] up to its [select]: [Go] with a channel of capacity 1. *)
Definition Call_Go (serviceMethod args reply : string) (c : Client) : outcome :=
  Go serviceMethod args reply (Some 1%nat) c.

(** The [select] of [Call], when [<-ctx.Done()] is taken: the error
    [Call] returns and the client it leaves.  [ctxErr] is
    [ctx.Err().Error()]. *)
Definition Call_ctxDone (p : nat) (ctxErr : string) (c : Client)
    : string * Client :=
  match calls c !! p with
  | Some call =>
      ("rpc client: call failed: " ++ ctxErr, snd (removeCall (Call_Seq call) c))
  | None => ("rpc client: call failed: " ++ ctxErr, c)
  end.

(** The [select] of [Call], when [call := <-call.Done] is taken: enabled
    when the channel holds a call, whose [Error] is returned. *)
Definition Call_recvDone (p : nat) (c : Client)
    : option (option string * Client) :=
  match calls c !! p with
  | Some call =>
      match buf (Done call) with
      | q :: rest =>
          let c := update_call (with_buf rest) p c in
          Some ((calls c !! q) ≫= Call_Error, c)
      | [] => None
      end
  | None => None
  end.

(** The steps of the goroutines that share a client: a [Go] up to its
    write, the end of the write of the send in progress, a pass of the
    loop of [receive], and the two branches of the [select] of a [Call]
    for the call [p].  A step that has to wait (for the [sending] mutex,
    or for a signal on [Done]) leaves the client as it is; the [select]
    of a [Call] is not reached before its [Go] has returned. *)
Inductive event :=
  | EvGo (serviceMethod args reply : string) (done : option nat)
  | EvWritten (werr : option string)
  | EvReceive (hr : headerRead) (br : bodyRead)
  | EvCtxDone (p : nat) (ctxErr : string)
  | EvRecvDone (p : nat).

Definition step (ev : event) (c : Client) : outcome :=
  match ev with
  | EvGo sm args reply done => Go sm args reply done c
  | EvWritten werr => send_written werr c
  | EvReceive hr br => receive hr br c
  | EvCtxDone p ctxErr =>
      if bool_decide (sending c = Some p) then Next c
      else Next (snd (Call_ctxDone p ctxErr c))
  | EvRecvDone p =>
      match Call_recvDone p c with
      | Some (_, c') => Next c'
      | None => Next c
      end
  end.

Fixpoint run (evs : list event) (c : Client) : outcome :=
  match evs with
  | [] => Next c
  | ev :: rest =>
      match step ev c with
      | Next c' => run rest c'
      | o => o
      end
  end.

(** How many times [call.Done <- call] was done for the call [p]. *)
Fixpoint signals (p : nat) (tr : list action) : nat :=
  match tr with
  | [] => 0
  | Signal q :: tr => (if Nat.eqb p q then 1 else 0) + signals p tr
  | _ :: tr => signals p tr
  end.

(** How many [Go]s a run holds. *)
Fixpoint count_Go (evs : list event) : Z :=
  match evs with
  | [] => 0
  | EvGo _ _ _ _ :: rest => 1 + count_Go rest
  | _ :: rest => count_Go rest
  end.

End Client.

(** ** Package geerpc, the server *)

Module Server.

Import Codec.

(** A method of a service; the reflective part is not needed here. *)
Record methodType := { numCalls : Z }.

Record service := {
  name : string;
  method : gmap string methodType
}.

Record Server := { serviceMap : gmap string service }.

(** [strings.LastIndex(s, ".")]; [None] is [-1]. *)
Fixpoint LastIndexDot (s : string) : option nat :=
  match s with
  | EmptyString => None
  | String c rest =>
      match LastIndexDot rest with
      | Some i => Some (S i)
      | None => if Ascii.eqb c "."%char then Some O else None
      end
  end.

Definition findService (s : Server) (serviceMethod : string)
    : result (service * methodType) :=
  match LastIndexDot serviceMethod with
  | None => Err "rpc: invalid service method"
  | Some dot =>
      let serviceName := String.substring 0 dot serviceMethod in
      let methodName :=
        String.substring (S dot) (String.length serviceMethod - S dot)
          serviceMethod in
      match serviceMap s !! serviceName with
      | None => Err ("rpc: service not found: " ++ serviceName)
      | Some svc =>
          match method svc !! methodName with
          | None =>
              Err ("rpc: method not found: " ++ serviceName ++ "." ++ methodName)
          | Some mtype => Ok (svc, mtype)
          end
      end
  end.

(** The reading side of a codec: the items still to be decoded from the
    connection.  A read takes the next item; decoding an item as the
    other kind fails, and so does reading past the end. *)
Inductive item :=
  | ItemHeader (h : Header)
  | ItemBody (v : string)
  | ItemBad (e : string).

Definition ReadHeader (cc : list item) : (string + Header) * list item :=
  match cc with
  | [] => (inl "EOF", [])
  | ItemHeader h :: rest => (inr h, rest)
  | ItemBody _ :: rest => (inl "type mismatch", rest)
  | ItemBad e :: rest => (inl e, rest)
  end.

Definition ReadBody (cc : list item) : (string + string) * list item :=
  match cc with
  | [] => (inl "EOF", [])
  | ItemBody v :: rest => (inr v, rest)
  | ItemHeader _ :: rest => (inl "type mismatch", rest)
  | ItemBad e :: rest => (inl e, rest)
  end.

Record Request := {
  H : Header;
  Arg : string;
  svc : option service;
  mtype : option methodType
}.

(** [readRequest]: the request (nil or not) and the error (nil or not),
    with the codec it leaves. *)
Definition readRequest (s : Server) (cc : list item)
    : (option Request * option string) * list item :=
  match ReadHeader cc with
  | (inl e, cc) => ((None, Some e), cc)
  | (inr header, cc) =>
      let req := {| H := header; Arg := ""; svc := None; mtype := None |} in
      match findService s (ServiceMethod header) with
      | Err e | Panic e => ((Some req, Some e), cc)
      | Ok (sv, mt) =>
          let req := {| H := header; Arg := ""; svc := Some sv;
                        mtype := Some mt |} in
          match ReadBody cc with
          | (inl e, cc) => ((Some req, Some e), cc)
          | (inr v, cc) =>
              ((Some {| H := header; Arg := v; svc := Some sv;
                        mtype := Some mt |}, None), cc)
          end
      end
  end.

(** What [serveCodec] has done when its loop ends: the requests it
    started a handler for, in order, and the items it left unread.  The
    loop itself writes nothing: every response comes from a handler. *)
Record served := {
  handled : list Request;
  unread : list item
}.

(** The loop of [serveCodec]; [None] when [fuel] passes are not enough. *)
Fixpoint serveCodec_loop (fuel : nat) (s : Server) (cc : list item)
    (acc : list Request) : option served :=
  match fuel with
  | O => None
  | S fuel =>
      match readRequest s cc with
      | ((_, Some _), cc) => Some {| handled := acc; unread := cc |}
      | ((None, None), cc) => Some {| handled := acc; unread := cc |}
      | ((Some req, None), cc) => serveCodec_loop fuel s cc (acc ++ [req])
      end
  end.

(** Each pass reads at least one item, and the pass on an empty
    connection ends the loop. *)
Definition serveCodec (s : Server) (cc : list item) : option served :=
  serveCodec_loop (S (length cc)) s cc [].

(** *** [handleRequest] *)

(** The body passed to [sendResponse]. *)
Inductive body :=
  | BodyNil
  | BodyReplyValue (v : string)      (* [req.Reply], the [reflect.Value] *)
  | BodyReply (v : string).          (* [req.Reply.Interface()] *)

(** Where the goroutine of [handleRequest] stands. *)
Inductive mainpc :=
  | MWaitCalled0      (* timeout = 0, at [<-called] *)
  | MWaitSent0        (* timeout = 0, at [<-sent] *)
  | MSelect           (* at the [select] *)
  | MTimedOut         (* [<-time.After(timeout)] was taken *)
  | MWaitSent         (* [<-called] was taken, at [<-sent] *)
  | MLastSend         (* after the [select], before the last [sendResponse] *)
  | MReturned.

(** Where the goroutine it starts stands. *)
Inductive workerpc :=
  | WCalling          (* in [req.svc.call] *)
  | WCalled           (* at [called <- struct{}{}] *)
  | WRespond          (* before its [sendResponse] *)
  | WSent             (* at [sent <- struct{}{}] *)
  | WReturned.

Record handler := {
  main : mainpc;
  worker : workerpc;
  reqH : Header;                      (* [req.H], shared by both *)
  reply : string;                     (* the value [req.Reply] points to *)
  written : list (Header * body)      (* the [cc.Write]s, in order *)
}.

(** Which goroutine moves: the timer fires and the [select] takes it, the
    started goroutine moves, or [handleRequest] itself moves. *)
Inductive move := Timer | Worker | Main.

Section handleRequest.

(** [time.Duration.String]. *)
Variable DurationString : Z -> string.

(** The method called: the error it returns and the reply it leaves. *)
Variable callErr : option string.
Variable callReply : string.

Definition handleTimeoutError (timeout : Z) : string :=
  "rpc server: request handle timeout: expect within " ++ DurationString timeout.

Definition sendResponse (b : body) (hd : handler) : handler :=
  {| main := main hd; worker := worker hd; reqH := reqH hd; reply := reply hd;
     written := written hd ++ [(reqH hd, b)] |}.

Definition set_Error (e : string) (hd : handler) : handler :=
  {| main := main hd; worker := worker hd; reqH := with_Error e (reqH hd);
     reply := reply hd; written := written hd |}.

Definition at_pcs (m : mainpc) (w : workerpc) (hd : handler) : handler :=
  {| main := m; worker := w; reqH := reqH hd; reply := reply hd;
     written := written hd |}.

Definition handler_init (timeout : Z) (h : Header) : handler :=
  {| main := if timeout =? 0 then MWaitCalled0 else MSelect;
     worker := WCalling; reqH := h; reply := ""; written := [] |}.

(** One move.  The channels [called] and [sent] are unbuffered: a send
    on them goes through only when [handleRequest] is at the matching
    receive.  A goroutine that cannot move stays where it is. *)
Definition handler_step (timeout : Z) (mv : move) (hd : handler) : handler :=
  match mv with
  | Worker =>
      match worker hd with
      | WCalling =>
          {| main := main hd; worker := WCalled; reqH := reqH hd;
             reply := callReply; written := written hd |}
      | WCalled =>
          match main hd with
          | MWaitCalled0 => at_pcs MWaitSent0 WRespond hd
          | MSelect => at_pcs MWaitSent WRespond hd
          | _ => hd
          end
      | WRespond =>
          match callErr with
          | Some e =>
              at_pcs (main hd) WSent (sendResponse BodyNil (set_Error e hd))
          | None =>
              at_pcs (main hd) WSent (sendResponse (BodyReply (reply hd)) hd)
          end
      | WSent =>
          match main hd with
          | MWaitSent0 => at_pcs MReturned WReturned hd
          | MWaitSent => at_pcs MLastSend WReturned hd
          | _ => hd
          end
      | WReturned => hd
      end
  | Timer =>
      match main hd with
      | MSelect => at_pcs MTimedOut (worker hd) hd
      | _ => hd
      end
  | Main =>
      match main hd with
      | MTimedOut =>
          at_pcs MLastSend (worker hd)
            (sendResponse (BodyReplyValue (reply hd))
               (set_Error (handleTimeoutError timeout) hd))
      | MLastSend =>
          at_pcs MReturned (worker hd) (sendResponse (BodyReply (reply hd)) hd)
      | _ => hd
      end
  end.

(** [handleRequest] under the schedule [mvs]. *)
Definition handleRequest (timeout : Z) (h : Header) (mvs : list move) : handler :=
  fold_left (fun hd mv => handler_step timeout mv hd) mvs (handler_init timeout h).

End handleRequest.

End Server.

(** ** Go's [strings] functions the sources use *)

Module Strings.

(** [strings.Split(s, sep)] for a separator of one byte: the pieces of
    [s] between the separators, in order; one piece, [s] itself, when
    there is no separator. *)
Fixpoint Split (sep : ascii) (s : string) : list string :=
  match s with
  | EmptyString => [EmptyString]
  | String c rest =>
      if Ascii.eqb c sep then EmptyString :: Split sep rest
      else
        match Split sep rest with
        | w :: ws => String c w :: ws
        | [] => [String c EmptyString]
        end
  end.

(** How many times the byte [sep] occurs in [s]. *)
Fixpoint Count (sep : ascii) (s : string) : nat :=
  match s with
  | EmptyString => 0%nat
  | String c rest => ((if Ascii.eqb c sep then 1 else 0) + Count sep rest)%nat
  end.

End Strings.

(** ** Package xclient: the locks of [MultiServersDiscovery] *)

Module DiscoveryLocked.

(** A [sync.RWMutex]: whether it is locked for writing, and by how many
    readers it is locked. *)
Record RWMutex := { writer : bool; readers : nat }.

Definition unlocked : RWMutex := {| writer := false; readers := 0 |}.

(** Taking a lock gives the mutex with the lock taken, or [None] when the
    caller has to wait. *)
Definition Lock (mu : RWMutex) : option RWMutex :=
  if writer mu || negb (Nat.eqb (readers mu) 0) then None
  else Some {| writer := true; readers := readers mu |}.

Definition RLock (mu : RWMutex) : option RWMutex :=
  if writer mu then None
  else Some {| writer := false; readers := S (readers mu) |}.

Definition RUnlock (mu : RWMutex) : RWMutex :=
  {| writer := writer mu; readers := pred (readers mu) |}.

Record MultiServersDiscovery := {
  mu : RWMutex;
  state : Discovery.MultiServersDiscovery
}.

(** A call returns, with the discovery it leaves, or waits for a lock on
    the discovery it has reached. *)
Inductive outcome (A : Type) :=
  | Returns (a : A) (m : MultiServersDiscovery)
  | Waits (m : MultiServersDiscovery).
Arguments Returns {A} a m.
Arguments Waits {A} m.

(** [Update]: [m.mu.Lock()], [defer m.mu.RLock()], the assignment, and
    the deferred call on return. *)
Definition Update (servers : list string) (m : MultiServersDiscovery)
    : outcome (option string) :=
  match Lock (mu m) with
  | None => Waits m
  | Some mu1 =>
      let m1 := {| mu := mu1;
                   state := {| Discovery.servers := servers;
                               Discovery.index := Discovery.index (state m) |} |} in
      match RLock mu1 with
      | None => Waits m1
      | Some mu2 => Returns None {| mu := mu2; state := state m1 |}
      end
  end.

(** [Get]: [m.mu.RLock()], [defer m.mu.RUnlock()], and the selection. *)
Definition Get (draw : Z) (mode : Discovery.SelectMode)
    (m : MultiServersDiscovery) : outcome (result string) :=
  match RLock (mu m) with
  | None => Waits m
  | Some mu1 =>
      let '(r, d) := Discovery.Get draw mode (state m) in
      Returns r {| mu := RUnlock mu1; state := d |}
  end.

Definition GetAll (m : MultiServersDiscovery) : outcome (result (list string)) :=
  match RLock (mu m) with
  | None => Waits m
  | Some mu1 =>
      Returns (Discovery.GetAll (state m)) {| mu := RUnlock mu1; state := state m |}
  end.

End DiscoveryLocked.

(** ** Package xclient: [GeeRegistryDiscovery] *)

Module RegistryDiscovery.

Record GeeRegistryDiscovery := {
  base : Discovery.MultiServersDiscovery;     (* the embedded discovery *)
  registry : string;
  timeout : Z;
  lastUpdate : Z
}.

(** The zero [time.Time], January 1 of year 1, in nanoseconds from the
    Unix epoch. *)
Definition zeroTime : Z := -62135596800 * 1000000000.

(** [NewGeeRegistryDiscovery]; [index] is the number drawn for the
    embedded discovery. *)
Definition NewGeeRegistryDiscovery (index : Z) (registerAddr : string)
    (timeout : Z) : GeeRegistryDiscovery :=
  {| base := {| Discovery.servers := []; Discovery.index := index |};
     registry := registerAddr; timeout := timeout; lastUpdate := zeroTime |}.

Definition set_servers (now : Z) (servers : list string)
    (d : GeeRegistryDiscovery) : GeeRegistryDiscovery :=
  {| base := {| Discovery.servers := servers;
                Discovery.index := Discovery.index (base d) |};
     registry := registry d; timeout := timeout d; lastUpdate := now |}.

(** [Update], at instant [now]. *)
Definition Update (now : Z) (servers : list string) (d : GeeRegistryDiscovery)
    : option string * GeeRegistryDiscovery :=
  (None, set_servers now servers d).

Section Refresh.

(** [strings.TrimSpace]. *)
Variable TrimSpace : string → string.

(** The loop of [Refresh] over the pieces of the header. *)
Fixpoint trimmed (pieces : list string) : list string :=
  match pieces with
  | [] => []
  | server :: rest =>
      if String.eqb (TrimSpace server) "" then trimmed rest
      else TrimSpace server :: trimmed rest
  end.

(** [Refresh].  [now] is the instant of the test and of the update;
    [httpGet] is what [http.Get(d.registry)] gives if it is called: an
    error, or the [X-Geerpc-Servers] header of the response ("" when
    there is none). *)
Definition Refresh (now : Z) (httpGet : string + string)
    (d : GeeRegistryDiscovery) : option string * GeeRegistryDiscovery :=
  if now <? lastUpdate d + timeout d then (None, d)
  else
    match httpGet with
    | inl e => (Some e, d)
    | inr header =>
        (None, set_servers now (trimmed (Strings.Split ","%char header)) d)
    end.

(** [Get]: [Refresh], then the embedded [Get]. *)
Definition Get (now : Z) (httpGet : string + string) (draw : Z)
    (mode : Discovery.SelectMode) (d : GeeRegistryDiscovery)
    : result string * GeeRegistryDiscovery :=
  match Refresh now httpGet d with
  | (Some e, d) => (Err e, d)
  | (None, d) =>
      let '(r, b) := Discovery.Get draw mode (base d) in
      (r, {| base := b; registry := registry d; timeout := timeout d;
             lastUpdate := lastUpdate d |})
  end.

(** [GetAll]: [Refresh], then the embedded [GetAll]. *)
Definition GetAll (now : Z) (httpGet : string + string)
    (d : GeeRegistryDiscovery) : result (list string) * GeeRegistryDiscovery :=
  match Refresh now httpGet d with
  | (Some e, d) => (Err e, d)
  | (None, d) => (Discovery.GetAll (base d), d)
  end.

End Refresh.

End RegistryDiscovery.

(** ** Package geerpc, the client: [XDial] *)

Module XDial.

(** Where [XDial] goes on: [DialHTTP(network, address, opts)] or
    [Dial(network, address, opts)]. *)
Inductive route :=
  | DialHTTP (network address : string)
  | Dial (network address : string).

Definition formatError (rpcAddr : string) : string :=
  "rpc client err: wrong format '" ++ rpcAddr ++ "', expect protocol@addr".

(** [XDial], up to the dial it hands over to. *)
Definition XDial (rpcAddr : string) : string + route :=
  match Strings.Split "@"%char rpcAddr with
  | [protocol; addr] =>
      if String.eqb protocol "http" then inr (DialHTTP "tcp" addr)
      else inr (Dial protocol addr)
  | _ => inl (formatError rpcAddr)
  end.

End XDial.

(** ** Package geerpc, the server: registration *)

Module ServerConn.

Import Server.


End ServerConn.

(** ** xclient/xclient.go: [Broadcast] *)

Module Broadcast.

(** What the goroutines of [Broadcast] share, under [lock]. *)
Record shared := {
  e : option string;            (* the error retained *)
  reply : option string;        (* the value [reply] points to; [None]: nil *)
  replyDone : bool;
  cancelled : bool              (* [cancel()] was called *)
}.

(** The critical section of one goroutine, whose [xc.call] returned
    [err] and left [cloned] in its own reply.  With a nil [reply] the
    copy of a first success panics. *)
Definition arrive (err : option string) (cloned : string) (st : shared)
    : result shared :=
  let st1 :=
    match err, e st with
    | Some x, None =>
        {| e := Some x; reply := reply st; replyDone := replyDone st;
           cancelled := true |}
    | _, _ => st
    end in
  match err with
  | None =>
      if replyDone st1 then Ok st1
      else
        match reply st1 with
        | None => Panic "reflect: call of reflect.Value.Elem on zero Value"
        | Some _ =>
            Ok {| e := e st1; reply := Some cloned; replyDone := true;
                  cancelled := cancelled st1 |}
        end
  | Some _ => Ok st1
  end.

Fixpoint arrive_all (results : list (option string * string)) (st : shared)
    : result shared :=
  match results with
  | [] => Ok st
  | (err, cloned) :: rest =>
      match arrive err cloned st with
      | Ok st' => arrive_all rest st'
      | Err x => Err x
      | Panic msg => Panic msg
      end
  end.

(** [Broadcast].  [getAll] is the result of [xc.d.GetAll()]; [results]
    are the results of the calls to the servers, in the order in which
    their goroutines take the lock.  The value is the error returned and
    the value [reply] points to at the end. *)
Definition Broadcast (getAll : result (list string))
    (results : list (option string * string)) (reply : option string)
    : result (option string * option string) :=
  match getAll with
  | Err x => Ok (Some x, reply)
  | Panic msg => Panic msg
  | Ok _ =>
      match arrive_all results
              {| e := None; reply := reply; replyDone := false;
                 cancelled := false |} with
      | Ok st => Ok (e st, Broadcast.reply st)
      | Err x => Err x
      | Panic msg => Panic msg
      end
  end.

End Broadcast.

(** * Properties *)

(** ** Durations *)

Lemma Sub_ge_of_gt (t u d : Z) :
  d <= maxDuration -> d < t - u -> d <= Sub t u.
Proof.
  intros Hd Hlt. unfold Sub.
  destruct (maxDuration <? t - u) eqn:E1; [exact Hd|].
  destruct (t - u <? minDuration) eqn:E2; [|lia].
  apply Z.ltb_lt in E2. unfold minDuration, maxDuration in *. lia.
Qed.

Lemma Sub_nonneg (t u : Z) : u <= t -> 0 <= Sub t u.
Proof.
  intros H. unfold Sub, maxDuration, minDuration.
  destruct (2 ^ 63 - 1 <? t - u); [lia|].
  destruct (t - u <? - 2 ^ 63) eqn:E; [apply Z.ltb_lt in E; lia | lia].
Qed.

(** ** The registry *)

Section RegistryFacts.

Import Registry.

(** What is left of the entry under [k] once the range has visited the
    keys of [order]. *)
Definition after_range (nowTime tmo : Z) (order : list string)
    (m : gmap string ServerItem) (k : string) : option ServerItem :=
  match m !! k with
  | Some it =>
      if bool_decide (k ∈ order) && expired nowTime tmo it then None else Some it
  | None => None
  end.

(** The keys whose entry is present and not expired. *)
Definition kept (nowTime tmo : Z) (m : gmap string ServerItem) (k : string) : bool :=
  match m !! k with
  | Some it => negb (expired nowTime tmo it)
  | None => false
  end.

Lemma keyed_empty : keyed ∅.
Proof. intros k it H. by rewrite lookup_empty in H. Qed.

Lemma keyed_delete k m : keyed m → keyed (delete k m).
Proof.
  intros Hk k' it H. apply lookup_delete_Some in H as [_ H]. by apply Hk.
Qed.

Lemma keyed_putServer now addr r :
  keyed (servers r) → keyed (servers (putServer now addr r)).
Proof.
  intros Hk k it. unfold putServer.
  destruct (servers r !! addr) as [server|] eqn:E; simpl;
    rewrite lookup_insert; case_decide; subst.
  - intros [= <-]. simpl. by apply Hk.
  - apply Hk.
  - by intros [= <-].
  - apply Hk.
Qed.

Lemma filter_kept_delete nowTime tmo k m (l : list string) :
  k ∉ l →
  List.filter (kept nowTime tmo (delete k m)) l = List.filter (kept nowTime tmo m) l.
Proof.
  intros Hk. induction l as [|x l IH]; [done|].
  apply not_elem_of_cons in Hk as [Hne Hk]. simpl.
  rewrite IH by done. unfold kept at 1 3.
  rewrite lookup_delete_ne by done. done.
Qed.

(** Cases on the memberships decided in the goal; what is left is a
    contradiction between [k' ∈ k :: rest], [k' ∈ rest] and [k' ≠ k]. *)
Local Ltac mem_cases :=
  repeat case_bool_decide; try done; exfalso;
  repeat match goal with
         | H : _ ∈ _ :: _ |- _ => apply elem_of_cons in H as [?|?]
         | H : _ ∉ _ :: _ |- _ => apply not_elem_of_cons in H as [? ?]
         end; done.

Lemma aliveServers_range_spec nowTime tmo order :
  ∀ m alive, keyed m → NoDup order →
    ∀ alive' m', aliveServers_range nowTime tmo order m alive = (alive', m') →
      (∀ k, m' !! k = after_range nowTime tmo order m k)
      ∧ alive' = (alive ++ List.filter (kept nowTime tmo m) order)%list.
Proof.
  induction order as [|k rest IH]; intros m alive Hkeyed Hnd alive' m' Hrun.
  - simpl in Hrun. injection Hrun as <- <-. split.
    + intros k. unfold after_range. destruct (m !! k); [|done].
      rewrite bool_decide_eq_false_2; [done | apply not_elem_of_nil].
    + by rewrite app_nil_r.
  - apply NoDup_cons in Hnd as [Hnotin Hnd]. simpl in Hrun.
    destruct (m !! k) as [server|] eqn:Ek.
    + pose proof (Hkeyed _ _ Ek) as Haddr. rewrite Haddr in Hrun.
      destruct (tmo <=? Sub nowTime (start server)) eqn:Eexp.
      * apply IH in Hrun as [Hm Ha]; [|by apply keyed_delete|done]. split.
        -- intros k'. rewrite Hm. unfold after_range.
           destruct (decide (k' = k)) as [->|Hne].
           ++ rewrite lookup_delete_eq, Ek.
              rewrite bool_decide_eq_true_2 by apply list_elem_of_here.
              unfold expired. by rewrite Eexp.
           ++ rewrite lookup_delete_ne by done.
              destruct (m !! k') as [it|]; [|done].
              mem_cases.
        -- rewrite Ha, filter_kept_delete by done. simpl.
           unfold kept at 2. rewrite Ek. unfold expired. by rewrite Eexp.
      * apply IH in Hrun as [Hm Ha]; [|done|done]. split.
        -- intros k'. rewrite Hm. unfold after_range.
           destruct (m !! k') as [it|] eqn:Ek'; [|done].
           destruct (decide (k' = k)) as [->|Hne].
           ++ assert (it = server) as -> by congruence.
              unfold expired. rewrite Eexp. by rewrite !andb_false_r.
           ++ mem_cases.
        -- rewrite Ha. simpl. unfold kept at 2. rewrite Ek.
           unfold expired. rewrite Eexp. simpl. by rewrite <- app_assoc.
    + apply IH in Hrun as [Hm Ha]; [|done|done]. split.
      * intros k'. rewrite Hm. unfold after_range.
        destruct (m !! k') as [it|] eqn:Ek'; [|done].
        assert (k' ≠ k) by congruence.
        mem_cases.
      * rewrite Ha. simpl. unfold kept at 2. by rewrite Ek.
Qed.

Lemma aliveServers_spec order nowTime r alive r' :
  keyed (servers r) → range_order order (servers r) →
  aliveServers order nowTime r = (alive, r') →
  timeout r' = timeout r
  ∧ (∀ k, servers r' !! k =
          match servers r !! k with
          | Some it => if expired nowTime (timeout r) it then None else Some it
          | None => None
          end)
  ∧ alive = List.filter (kept nowTime (timeout r) (servers r)) order.
Proof.
  intros Hkeyed [Hnd Hall]. unfold aliveServers.
  destruct (aliveServers_range _ _ _ _ _) as [al m] eqn:Hrun.
  intros [= <- <-]. simpl.
  destruct (aliveServers_range_spec _ _ _ _ _ Hkeyed Hnd _ _ Hrun) as [Hm Ha].
  split; [done|]. split; [|done].
  intros k. rewrite Hm. unfold after_range.
  destruct (servers r !! k) as [it|] eqn:Ek; [|done].
  rewrite bool_decide_eq_true_2; [done|]. apply Hall. by eexists.
Qed.

Lemma putServer_lookup now addr r k it :
  servers (putServer now addr r) !! k = Some it →
  (k = addr ∧ start it = now) ∨ servers r !! k = Some it.
Proof.
  unfold putServer.
  destruct (servers r !! addr) as [server|] eqn:E; simpl;
    rewrite lookup_insert; case_decide; subst; auto.
  - intros [= <-]. by left.
  - intros [= <-]. by left.
Qed.

(** The keys of the map, in the order of [map_to_list], are a visiting
    order of it. *)
Lemma range_order_keys (m : gmap string ServerItem) :
  range_order (map_to_list m).*1 m.
Proof.
  split; [apply NoDup_fst_map_to_list|].
  intros k. rewrite list_elem_of_fmap. split.
  - intros [[k' it] [-> Hin]]. apply elem_of_map_to_list in Hin. by eexists.
  - intros [it Hit]. exists (k, it). split; [done|].
    by apply elem_of_map_to_list.
Qed.

End RegistryFacts.

Section RegistryClaims.

Import Registry.

(** C7. A GET evicts before it answers: every entry whose last heartbeat
    is older than the TTL is gone from the server map, every entry that
    has not reached the TTL stays, and the [X-Geerpc-Servers] header is
    the comma-joined list of exactly the addresses that remain; so an
    address whose TTL has elapsed with no POST is not in the answer. *)
Theorem registry_get_evicts_before_answer
    (order : list string) (now : Z) (req : Request) (r : GeeRegistry) :
  Method req = "GET" →
  keyed (servers r) →
  range_order order (servers r) →
  timeout r <= maxDuration →
  ∃ alive r',
    ServeHTTP order now req r =
      ({| StatusCode := StatusOK;
          X_Geerpc_Servers := Some (Join alive ",") |}, r')
    ∧ (∀ addr it, servers r !! addr = Some it →
         timeout r < now - start it → servers r' !! addr = None)
    ∧ (∀ addr it, servers r !! addr = Some it →
         Sub now (start it) < timeout r → servers r' !! addr = Some it)
    ∧ (∀ addr, servers r !! addr = None → servers r' !! addr = None)
    ∧ alive ≡ₚ (map_to_list (servers r')).*1
    ∧ (∀ addr it, servers r !! addr = Some it →
         timeout r < now - start it → addr ∉ alive).
Proof.
  intros HGET Hkeyed Hord Hmax.
  destruct (aliveServers order now r) as [alive r'] eqn:Halive.
  exists alive, r'. unfold ServeHTTP. rewrite HGET, Halive. simpl.
  destruct (aliveServers_spec _ _ _ _ _ Hkeyed Hord Halive) as (_ & Hm & Ha).
  assert (Hgone : ∀ addr it, servers r !! addr = Some it →
            timeout r < now - start it → servers r' !! addr = None).
  { intros addr it Hin Hold. rewrite Hm, Hin. unfold expired.
    pose proof (Sub_ge_of_gt _ _ _ Hmax Hold) as Hge.
    apply Z.leb_le in Hge. by rewrite Hge. }
  assert (Hmem : ∀ addr, addr ∈ alive ↔ is_Some (servers r' !! addr)).
  { intros addr. rewrite Ha, list_elem_of_In, filter_In, <- list_elem_of_In.
    destruct Hord as [_ Hall]. rewrite Hall, Hm. unfold kept.
    destruct (servers r !! addr) as [it|] eqn:E.
    - destruct (expired now (timeout r) it); simpl; split.
      + by intros [_ ?].
      + by intros [? ?].
      + by eexists.
      + intros _. split; [by eexists | done].
    - split; [by intros [[? ?] _] | by intros [? ?]]. }
  split; [done|]. split; [exact Hgone|]. split; [|split; [|split]].
  - intros addr it Hin Hyoung. rewrite Hm, Hin. unfold expired.
    destruct (timeout r <=? Sub now (start it)) eqn:E; [|done].
    apply Z.leb_le in E. lia.
  - intros addr Hnone. by rewrite Hm, Hnone.
  - apply NoDup_Permutation.
    + rewrite Ha. apply NoDup_ListNoDup, List.NoDup_filter, NoDup_ListNoDup.
      by destruct Hord.
    + apply NoDup_fst_map_to_list.
    + intros addr. rewrite Hmem, list_elem_of_fmap. split.
      * intros [it Hit]. exists (addr, it). split; [done|].
        by apply elem_of_map_to_list.
      * intros [[k it] [-> Hin]]. apply elem_of_map_to_list in Hin.
        by eexists.
  - intros addr it Hin Hold Hal. apply Hmem in Hal as [it' Hit'].
    rewrite (Hgone _ _ Hin Hold) in Hit'. done.
Qed.

(** C10. With a zero timeout the test [elapsed >= timeout] holds for
    every entry whose heartbeat is not in the future: a GET removes all
    the registered entries and answers with an empty list. *)
Theorem registry_zero_timeout_evicts_all
    (order : list string) (now : Z) (req : Request) (r : GeeRegistry) :
  Method req = "GET" →
  timeout r = 0 →
  keyed (servers r) →
  range_order order (servers r) →
  (∀ addr it, servers r !! addr = Some it → start it <= now) →
  ServeHTTP order now req r =
    ({| StatusCode := StatusOK; X_Geerpc_Servers := Some "" |},
     NewGeeRegistry 0)
  ∧ fst (aliveServers order now r) = [].
Proof.
  intros HGET Hzero Hkeyed Hord Hpast.
  destruct (aliveServers order now r) as [alive r'] eqn:Halive.
  unfold ServeHTTP. rewrite HGET, Halive. simpl.
  destruct (aliveServers_spec _ _ _ _ _ Hkeyed Hord Halive) as (Ht & Hm & Ha).
  assert (Hexp : ∀ addr it, servers r !! addr = Some it →
            expired now (timeout r) it = true).
  { intros addr it Hin. unfold expired. rewrite Hzero.
    apply Z.leb_le, Sub_nonneg. by eapply Hpast. }
  assert (alive = []) as ->.
  { rewrite Ha. destruct Hord as [_ Hall]. clear Ha Halive.
    assert (Hsub : ∀ k, k ∈ order → kept now (timeout r) (servers r) k = false).
    { intros k Hk. unfold kept. destruct (servers r !! k) as [it|] eqn:E; [|done].
      by rewrite (Hexp _ _ E). }
    clear Hall. induction order as [|k rest IH]; [done|]. simpl.
    rewrite Hsub by apply list_elem_of_here.
    apply IH. intros k' Hk'. apply Hsub. by apply list_elem_of_further. }
  split; [|done]. f_equal. unfold NewGeeRegistry.
  destruct r' as [t' m']. simpl in *. f_equal; [congruence|].
  apply map_eq. intros k. rewrite Hm, lookup_empty.
  destruct (servers r !! k) as [it|] eqn:E; [|done]. by rewrite (Hexp _ _ E).
Qed.

(** A registry with a TTL of 10 that heard of "a:1" at instant 0 and of
    "b:2" at instant 95. *)
Definition registry_example : GeeRegistry :=
  putServer 95 "b:2" (putServer 0 "a:1" (NewGeeRegistry 10)).

(** The same heartbeats on a registry with a TTL of zero. *)
Definition registry_example_zero : GeeRegistry :=
  putServer 95 "b:2" (putServer 0 "a:1" (NewGeeRegistry 0)).

Definition GET : Request := {| Method := "GET"; X_Geerpc_Server := "" |}.

Lemma registry_get_evicts_before_answer_witness :
  ∃ alive r',
    ServeHTTP (map_to_list (servers registry_example)).*1 100 GET registry_example =
      ({| StatusCode := StatusOK;
          X_Geerpc_Servers := Some (Join alive ",") |}, r')
    ∧ (∀ addr it, servers registry_example !! addr = Some it →
         timeout registry_example < 100 - start it → servers r' !! addr = None)
    ∧ (∀ addr it, servers registry_example !! addr = Some it →
         Sub 100 (start it) < timeout registry_example →
         servers r' !! addr = Some it)
    ∧ (∀ addr, servers registry_example !! addr = None →
         servers r' !! addr = None)
    ∧ alive ≡ₚ (map_to_list (servers r')).*1
    ∧ (∀ addr it, servers registry_example !! addr = Some it →
         timeout registry_example < 100 - start it → addr ∉ alive).
Proof.
  apply (registry_get_evicts_before_answer _ 100 GET registry_example).
  - reflexivity.
  - apply keyed_putServer, keyed_putServer, keyed_empty.
  - apply range_order_keys.
  - vm_compute. discriminate.
Defined.

Lemma registry_zero_timeout_evicts_all_witness :
  ServeHTTP (map_to_list (servers registry_example_zero)).*1 100 GET
      registry_example_zero =
    ({| StatusCode := StatusOK; X_Geerpc_Servers := Some "" |},
     NewGeeRegistry 0)
  ∧ fst (aliveServers (map_to_list (servers registry_example_zero)).*1 100
           registry_example_zero) = [].
Proof.
  apply (registry_zero_timeout_evicts_all _ 100 GET registry_example_zero).
  - reflexivity.
  - reflexivity.
  - apply keyed_putServer, keyed_putServer, keyed_empty.
  - apply range_order_keys.
  - intros addr it [[_ ->]|[[_ ->]|H]%putServer_lookup]%putServer_lookup;
      [lia | lia | ].
    simpl in H. by rewrite lookup_empty in H.
Defined.

End RegistryClaims.

(** ** Discovery *)

Section DiscoveryClaims.

Import Discovery.

Lemma index_slice_in_range (s : list string) (i : Z) :
  0 <= i < Z.of_nat (length s) →
  ∃ x, s !! Z.to_nat i = Some x ∧ index_slice s i = Ok x.
Proof.
  intros [Hlo Hhi]. unfold index_slice.
  apply Z.leb_le in Hlo as Hlo'. apply Z.ltb_lt in Hhi as Hhi'.
  rewrite Hlo', Hhi'. simpl.
  destruct (lookup_lt_is_Some_2 s (Z.to_nat i)) as [x Hx]; [lia|].
  exists x. by rewrite Hx.
Qed.

Lemma index_slice_not_Err (s : list string) (i : Z) (e : string) :
  index_slice s i = Err e → False.
Proof.
  unfold index_slice.
  destruct ((0 <=? i) && (i <? Z.of_nat (length s))); [|done].
  by destruct (s !! Z.to_nat i).
Qed.

Lemma wrap_int_small (z : Z) : - 2 ^ 63 <= z < 2 ^ 63 → wrap_int z = z.
Proof.
  intros H. unfold wrap_int. rewrite Z.mod_small; lia.
Qed.

(** C9. [Get] answers "invalid server" exactly for the modes other than
    [RandomSelect] and [RoundRobinSelect].  On a non-empty list
    [RoundRobinSelect] returns the server at [(index + 1) mod length] and
    stores that index.  On an empty list neither mode returns an error:
    [RandomSelect] panics in [Intn] and [RoundRobinSelect] on the division
    by zero. *)
Theorem discovery_Get_selection
    (draw : Z) (mode : SelectMode) (m : MultiServersDiscovery) :
  0 <= index m < 2 ^ 63 - 1 →
  (fst (Get draw mode m) = Err "invalid server"
     ↔ mode ≠ RandomSelect ∧ mode ≠ RoundRobinSelect)
  ∧ (servers m ≠ [] →
       let next := (index m + 1) mod len (servers m) in
       ∃ s, servers m !! Z.to_nat next = Some s
            ∧ Get draw RoundRobinSelect m =
                (Ok s, {| servers := servers m; index := next |}))
  ∧ (servers m = [] →
       Get draw RandomSelect m = (Panic "invalid argument to Intn", m)
       ∧ Get draw RoundRobinSelect m = (Panic "integer divide by zero", m)).
Proof.
  intros Hidx. split; [|split].
  - unfold Get, RandomSelect, RoundRobinSelect. split.
    + destruct (mode =? 0) eqn:E0.
      * unfold Intn. destruct (len (servers m) <=? 0); [done|]. simpl.
        by intros ?%index_slice_not_Err.
      * destruct (mode =? 1) eqn:E1.
        -- destruct (len (servers m) =? 0); [done|]. simpl.
           by intros ?%index_slice_not_Err.
        -- intros _. apply Z.eqb_neq in E0, E1. done.
    + intros [H0 H1]. apply Z.eqb_neq in H0, H1. by rewrite H0, H1.
  - intros Hne next.
    assert (0 < len (servers m)) as Hlen.
    { unfold len. destruct (servers m); [done | simpl; lia]. }
    assert (Hnext : Z.rem (wrap_int (index m + 1)) (len (servers m)) = next).
    { rewrite wrap_int_small by lia. rewrite Z.rem_mod_nonneg by lia. done. }
    destruct (index_slice_in_range (servers m) next) as (s & Hs & Hok).
    { subst next. apply Z.mod_pos_bound. exact Hlen. }
    exists s. split; [done|].
    unfold Get. simpl.
    destruct (len (servers m) =? 0) eqn:E; [apply Z.eqb_eq in E; lia|].
    simpl. by rewrite Hnext, Hok.
  - intros Hnil. unfold Get. rewrite Hnil. done.
Qed.

Definition discovery_example : MultiServersDiscovery :=
  {| servers := ["tcp@a:1"; "tcp@b:2"; "tcp@c:3"]; index := 4 |}.

Lemma discovery_Get_selection_witness :
  (fst (Get 7 5 discovery_example) = Err "invalid server"
     ↔ 5 ≠ RandomSelect ∧ 5 ≠ RoundRobinSelect)
  ∧ (servers discovery_example ≠ [] →
       let next := (index discovery_example + 1) mod len (servers discovery_example) in
       ∃ s, servers discovery_example !! Z.to_nat next = Some s
            ∧ Get 7 RoundRobinSelect discovery_example =
                (Ok s, {| servers := servers discovery_example; index := next |}))
  ∧ (servers discovery_example = [] →
       Get 7 RandomSelect discovery_example = (Panic "invalid argument to Intn", discovery_example)
       ∧ Get 7 RoundRobinSelect discovery_example =
           (Panic "integer divide by zero", discovery_example)).
Proof.
  apply (discovery_Get_selection 7 5 discovery_example).
  simpl. lia.
Defined.

Example discovery_round_robin_run :
  Get 7 RoundRobinSelect discovery_example =
    (Ok "tcp@c:3", {| servers := servers discovery_example; index := 2 |}).
Proof. reflexivity. Qed.

Example discovery_empty_list_panics :
  fst (Get 7 RandomSelect {| servers := []; index := 4 |})
    = Panic "invalid argument to Intn"
  ∧ fst (Get 7 RoundRobinSelect {| servers := []; index := 4 |})
    = Panic "integer divide by zero".
Proof. split; reflexivity. Qed.

End DiscoveryClaims.

(** ** The client cache of [XClient] *)

Section XClientClaims.

Import XClient.

Definition available : Client := {| closing := false; shutdown := false |}.
Definition stale : Client := {| closing := false; shutdown := true |}.

(** What [dial] does with an address that is not cached: it dials, caches
    the new client and returns it. *)
Lemma dial_absent (cl : Client) (rpcAddr : string) (xc : XClient) :
  clients xc !! rpcAddr = None →
  dial (Ok (Some cl)) rpcAddr xc =
    (Ok (Some (length (store xc))),
     {| store := store xc ++ [cl];
        clients := <[rpcAddr := Some (length (store xc))]> (clients xc) |}).
Proof.
  intros H. unfold dial. by rewrite H.
Qed.

(** What [dial] does with a cached client that is available: it closes
    it, dials, caches the new client and returns the new one. *)
Lemma dial_cached_available (cl old : Client) (p : nat) (rpcAddr : string)
    (xc : XClient) :
  clients xc !! rpcAddr = Some (Some p) →
  store xc !! p = Some old →
  IsAvailable old = true →
  dial (Ok (Some cl)) rpcAddr xc =
    (Ok (Some (length (store xc))),
     {| store := <[p := Close old]> (store xc) ++ [cl];
        clients := <[rpcAddr := Some (length (store xc))]> (clients xc) |}).
Proof.
  intros Hc Hp Hav. unfold dial. rewrite Hc. simpl.
  rewrite Hp, Hav. simpl. by rewrite length_insert.
Qed.

(** What [dial] does with a cached client that is not available: it
    returns it, and neither closes it nor dials. *)
Lemma dial_cached_unavailable (xdial : result (option Client)) (old : Client)
    (p : nat) (rpcAddr : string) (xc : XClient) :
  clients xc !! rpcAddr = Some (Some p) →
  store xc !! p = Some old →
  IsAvailable old = false →
  dial xdial rpcAddr xc = (Ok (Some p), xc).
Proof.
  intros Hc Hp Hav. unfold dial. rewrite Hc. simpl.
  by rewrite Hp, Hav.
Qed.

(** An [XClient] whose cache holds one client, [cl], for "tcp@a:1". *)
Definition xclient_caching (cl : Client) : XClient :=
  {| store := [cl]; clients := {[ "tcp@a:1" := Some 0%nat ]} |}.

(** C4, on the code.  With an available client cached for the address,
    [dial] does not return it: it closes it and returns a newly dialed
    one.  With a stale client cached, [dial] returns the stale client,
    which it neither closes nor replaces. *)
Theorem xclient_dial_inverts_availability :
  dial (Ok (Some available)) "tcp@a:1" (xclient_caching available) =
    (Ok (Some 1%nat),
     {| store := [Close available; available];
        clients := {[ "tcp@a:1" := Some 1%nat ]} |})
  ∧ dial (Ok (Some available)) "tcp@a:1" (xclient_caching stale) =
      (Ok (Some 0%nat), xclient_caching stale)
  ∧ IsAvailable stale = false
  ∧ IsAvailable (Close available) = false.
Proof.
  split; [|split; [|done]].
  - by rewrite (dial_cached_available available available 0 "tcp@a:1").
  - by rewrite (dial_cached_unavailable _ stale 0 "tcp@a:1").
Qed.

End XClientClaims.

(** ** Connection establishment *)

Section DialClaims.

Import Dial.

(** What [NewHTTPClient] returns for a response that was read: the
    handshake of [NewClient] on the matching status, and otherwise no
    client and no error. *)
Lemma NewHTTPClient_read (status : string) (hs : clientResult) :
  NewHTTPClient (Some {| Status := status |}) None hs =
    if String.eqb status connected then Ok hs
    else Ok {| client := None; err := None |}.
Proof. unfold NewHTTPClient. simpl. by destruct (String.eqb status connected). Qed.

(** The error is built only when the read failed, where there is no
    response to take the status from. *)
Lemma NewHTTPClient_read_failed (e : string) (hs : clientResult) :
  NewHTTPClient None (Some e) hs = Panic "nil pointer dereference".
Proof. reflexivity. Qed.

(** C5, on the code.  For a response read without error whose status is
    "404 Not Found", [NewHTTPClient] returns no client and a nil error,
    not the error "unexpected HTTP response: 404 Not Found"; the
    matching status goes on to the handshake. *)
Theorem NewHTTPClient_unexpected_status_returns_nil_error (hs : clientResult) :
  NewHTTPClient (Some {| Status := "404 Not Found" |}) None hs =
    Ok {| client := None; err := None |}
  ∧ NewHTTPClient (Some {| Status := connected |}) None hs = Ok hs.
Proof. split; reflexivity. Qed.



(** A rendering of durations for the examples: whole seconds. *)
Definition seconds (d : Z) : string :=
  if d =? 1000000000 then "1s" else "?".


(** The test "0 means no limit": the same handshake, two seconds long,
    with a zero timeout. *)
Example dialTimeout_zero_waits :
  dialTimeout seconds None
      (After 2000000000 {| client := None; err := None |}) false 0 =
    Returns {| client := None; err := None |} false.
Proof. reflexivity. Qed.

End DialClaims.

(** ** The server *)

Section ServerClaims.

Import Codec Server.

(** *** [findService] and [readRequest] *)

Definition Foo : service :=
  {| name := "Foo"; method := {[ "Sum" := {| numCalls := 0 |} ]} |}.

Definition server_example : Server := {| serviceMap := {[ "Foo" := Foo ]} |}.

Example findService_examples :
  findService server_example "Foo.Sum" = Ok (Foo, {| numCalls := 0 |})
  ∧ findService server_example "Foo" = Err "rpc: invalid service method"
  ∧ findService server_example "Bar.Sum" = Err "rpc: service not found: Bar"
  ∧ findService server_example "Foo.Nope" = Err "rpc: method not found: Foo.Nope"
  ∧ findService server_example "a.Foo.Sum" = Err "rpc: service not found: a.Foo".
Proof. repeat split; reflexivity. Qed.

Lemma ReadHeader_length cc r cc' :
  ReadHeader cc = (r, cc') → (length cc' <= length cc)%nat.
Proof.
  destruct cc as [|[h|v|e] rest]; simpl; intros [= <- <-]; simpl; lia.
Qed.






(** The loop ends at the first request whose read returns an error,
    whichever the error: nothing is handled for it and nothing after it
    is read. *)
Lemma serveCodec_loop_stops_on_error s fuel cc acc req e cc' :
  readRequest s cc = ((req, Some e), cc') →
  serveCodec_loop (S fuel) s cc acc = Some {| handled := acc; unread := cc' |}.
Proof. intros H. simpl. rewrite H. by destruct req. Qed.

(** A request whose method does not resolve ends the loop: no handler,
    and the rest of the connection stays unread. *)
Lemma serveCodec_dispatch_error s h rest e :
  findService s (ServiceMethod h) = Err e →
  serveCodec s (ItemHeader h :: rest) = Some {| handled := []; unread := rest |}.
Proof.
  intros Hfind. unfold serveCodec.
  apply (serveCodec_loop_stops_on_error s _ _ []
           (Some {| H := h; Arg := ""; svc := None; mtype := None |}) e).
  unfold readRequest. simpl. by rewrite Hfind.
Qed.

(** So does a request whose body cannot be read. *)
Lemma serveCodec_body_error s h sv mt rest e :
  findService s (ServiceMethod h) = Ok (sv, mt) →
  serveCodec s (ItemHeader h :: ItemBad e :: rest) =
    Some {| handled := []; unread := rest |}.
Proof.
  intros Hfind. unfold serveCodec.
  apply (serveCodec_loop_stops_on_error s _ _ []
           (Some {| H := h; Arg := ""; svc := Some sv; mtype := Some mt |}) e).
  unfold readRequest. simpl. by rewrite Hfind.
Qed.

Definition request (serviceMethod : string) (sq : Z) : Header :=
  {| ServiceMethod := serviceMethod; Seq := sq; Error := "" |}.

(** C2, on the code.  A connection carries three requests: one to a
    method that does not exist, then two good ones.  [readRequest] gives
    the first back with its header and the dispatch error, and
    [serveCodec] leaves its loop there: no handler is started, so no
    response is written, and the two good requests are never read.  The
    same happens when the body of the first request cannot be read. *)
Theorem serveCodec_call_error_ends_the_loop :
  let good := [ItemHeader (request "Foo.Sum" 2); ItemBody "1+2";
               ItemHeader (request "Foo.Sum" 3); ItemBody "3+4"] in
  readRequest server_example
      (ItemHeader (request "Foo.Nope" 1) :: ItemBody "x" :: good) =
    ((Some {| H := request "Foo.Nope" 1; Arg := ""; svc := None; mtype := None |},
      Some "rpc: method not found: Foo.Nope"), ItemBody "x" :: good)
  ∧ serveCodec server_example
      (ItemHeader (request "Foo.Nope" 1) :: ItemBody "x" :: good) =
    Some {| handled := []; unread := ItemBody "x" :: good |}
  ∧ serveCodec server_example
      (ItemHeader (request "Foo.Sum" 1) :: ItemBad "unexpected EOF" :: good) =
    Some {| handled := []; unread := good |}
  ∧ length
      (handled (default {| handled := []; unread := [] |}
                  (serveCodec server_example good))) = 2%nat.
Proof. repeat split; reflexivity. Qed.

(** *** [handleRequest] *)

(** The writes made so far, by where the two goroutines stand; [zero]
    says that the timeout is zero.  [None]: a pair of places that is
    never reached. *)
Definition writes_at (zero : bool) (m : mainpc) (w : workerpc) : option nat :=
  match m, w with
  | MWaitCalled0, (WCalling | WCalled) => if zero then Some 0%nat else None
  | MWaitSent0, WRespond => if zero then Some 0%nat else None
  | MWaitSent0, WSent => if zero then Some 1%nat else None
  | MSelect, (WCalling | WCalled) => if zero then None else Some 0%nat
  | MTimedOut, (WCalling | WCalled) => if zero then None else Some 0%nat
  | MWaitSent, WRespond => if zero then None else Some 0%nat
  | MWaitSent, WSent => if zero then None else Some 1%nat
  | MLastSend, (WCalling | WCalled | WReturned) =>
      if zero then None else Some 1%nat
  | MReturned, WReturned => if zero then Some 1%nat else Some 2%nat
  | MReturned, (WCalling | WCalled) => if zero then None else Some 2%nat
  | _, _ => None
  end.

Definition handler_inv (zero : bool) (hd : handler) : Prop :=
  writes_at zero (main hd) (worker hd) = Some (length (written hd)).

Lemma handler_step_inv DurationString callErr callReply timeout zero mv hd :
  handler_inv zero hd →
  handler_inv zero (handler_step DurationString callErr callReply timeout mv hd).
Proof.
  unfold handler_inv. destruct hd as [m w h r wr]. simpl.
  destruct mv, m, w, zero, callErr; simpl; try done;
    rewrite ?length_app; simpl; intros [= <-]; f_equal; lia.
Qed.

Lemma handleRequest_inv DurationString callErr callReply timeout h mvs :
  handler_inv (timeout =? 0)
    (handleRequest DurationString callErr callReply timeout h mvs).
Proof.
  unfold handleRequest.
  assert (Hinit : handler_inv (timeout =? 0) (handler_init timeout h)).
  { unfold handler_inv, handler_init. simpl. by destruct (timeout =? 0). }
  revert Hinit. generalize (handler_init timeout h).
  induction mvs as [|mv mvs IH]; intros hd Hinv; [done|].
  simpl. apply IH. by apply handler_step_inv.
Qed.

(** C1, on the code.  Under every schedule, a [handleRequest] with a
    non-zero timeout that returns has written two responses on the
    connection, whether the timer or the method came first; only with a
    zero timeout does it write one. *)
Theorem handleRequest_writes_twice_with_timeout
    (DurationString : Z → string) (callErr : option string) (callReply : string)
    (timeout : Z) (h : Header) (mvs : list move) :
  main (handleRequest DurationString callErr callReply timeout h mvs) = MReturned →
  length (written (handleRequest DurationString callErr callReply timeout h mvs))
    = if timeout =? 0 then 1%nat else 2%nat.
Proof.
  intros Hret.
  pose proof (handleRequest_inv DurationString callErr callReply timeout h mvs)
    as Hinv.
  unfold handler_inv in Hinv. rewrite Hret in Hinv.
  destruct (worker _), (timeout =? 0); simpl in Hinv; congruence.
Qed.

Definition second : Z := 1000000000.

(** The method returns before the timer: its response is written twice. *)
Lemma handleRequest_writes_twice_with_timeout_witness :
  length (written (handleRequest seconds None "3" second (request "Foo.Sum" 7)
                     [Worker; Worker; Worker; Worker; Main]))
    = if second =? 0 then 1%nat else 2%nat.
Proof.
  apply (handleRequest_writes_twice_with_timeout seconds None "3" second
           (request "Foo.Sum" 7) [Worker; Worker; Worker; Worker; Main]).
  reflexivity.
Defined.

Example handleRequest_method_first :
  written (handleRequest seconds None "3" second (request "Foo.Sum" 7)
             [Worker; Worker; Worker; Worker; Main])
  = [(request "Foo.Sum" 7, BodyReply "3"); (request "Foo.Sum" 7, BodyReply "3")].
Proof. reflexivity. Qed.

(** The timer fires first: the timeout response is written with the
    reply value as its body, then once more; the method ends later and
    its goroutine stays at [called <- struct{}{}], writing nothing. *)
Example handleRequest_timer_first :
  let hd := handleRequest seconds None "3" second (request "Foo.Sum" 7)
              [Timer; Main; Main; Worker; Worker; Worker; Worker] in
  let timedOut :=
    {| ServiceMethod := "Foo.Sum"; Seq := 7;
       Error := "rpc server: request handle timeout: expect within 1s" |} in
  written hd = [(timedOut, BodyReplyValue ""); (timedOut, BodyReply "")]
  ∧ main hd = MReturned
  ∧ worker hd = WCalled.
Proof. repeat split; reflexivity. Qed.

(** With a zero timeout the handler writes the one response. *)
Example handleRequest_no_timeout :
  written (handleRequest seconds None "3" 0 (request "Foo.Sum" 7)
             [Worker; Worker; Worker; Worker])
  = [(request "Foo.Sum" 7, BodyReply "3")].
Proof. reflexivity. Qed.

End ServerClaims.

(** ** The client *)

Section ClientFacts.

Import Codec Client.

(** The [Seq] and the [Done] channel of the call [p] points to. *)
Definition seq_at (c : Client) (p : nat) : option Z :=
  Call_Seq <$> calls c !! p.

Definition chan_at (c : Client) (p : nat) : option Chan :=
  Done <$> calls c !! p.

(** What holds of a client between any two steps.
    - A pending call is stored, under its own [Seq].
    - A call was signalled at most once, and not at all if it is not
      allocated yet, or if it is pending on a client that is not shut down.
    - The call being sent is still pending and not signalled, or it is
      not pending any more.
    - A [Done] channel has room for one signal and holds no more calls
      than were signalled. *)
Record inv (c : Client) : Prop := {
  inv_valid : ∀ s p, pending c !! s = Some p → seq_at c p = Some s;
  inv_fresh : ∀ p, seq_at c p = None → signals p (trace c) = 0%nat;
  inv_once : ∀ p, (signals p (trace c) ≤ 1)%nat;
  inv_live : shutdown c = false →
             ∀ s p, pending c !! s = Some p → signals p (trace c) = 0%nat;
  inv_sending : ∀ p, sending c = Some p →
                ∃ s, seq_at c p = Some s
                     ∧ ((pending c !! s = Some p ∧ signals p (trace c) = 0%nat)
                        ∨ pending c !! s = None);
  inv_chan : ∀ p ch, chan_at c p = Some ch →
             (length (buf ch) ≤ signals p (trace c))%nat ∧ (1 ≤ cap ch)%nat
}.

(** An update of a call that leaves its [Seq] and its channel alone. *)
Definition neutral (f : Call → Call) : Prop :=
  ∀ call, Call_Seq (f call) = Call_Seq call ∧ Done (f call) = Done call.

Lemma neutral_with_Call_Error e : neutral (with_Call_Error e).
Proof. by intros call. Qed.

Lemma neutral_with_Reply v : neutral (with_Reply v).
Proof. by intros call. Qed.

Lemma signals_app p tr a :
  signals p (tr ++ [a]) =
    (signals p tr + match a with
                    | Signal q => if Nat.eqb p q then 1 else 0
                    | _ => 0
                    end)%nat.
Proof.
  induction tr as [|b tr IH]; simpl.
  - destruct a; simpl; lia.
  - destruct b; rewrite IH; lia.
Qed.

Lemma update_call_fields f p c :
  seq (update_call f p c) = seq c
  ∧ pending (update_call f p c) = pending c
  ∧ closing (update_call f p c) = closing c
  ∧ shutdown (update_call f p c) = shutdown c
  ∧ sending (update_call f p c) = sending c
  ∧ trace (update_call f p c) = trace c.
Proof. unfold update_call. by destruct (calls c !! p). Qed.

Lemma update_call_lookup f p c q :
  calls (update_call f p c) !! q =
    if decide (q = p) then f <$> calls c !! q else calls c !! q.
Proof.
  unfold update_call. destruct (calls c !! p) as [call|] eqn:E; simpl.
  - case_decide as Hq.
    + subst q. rewrite E. simpl. apply list_lookup_insert_eq.
      by eapply lookup_lt_Some.
    + by apply list_lookup_insert_ne.
  - case_decide as Hq; [|done]. subst q. by rewrite E.
Qed.

Lemma seq_at_update_neutral f p c q :
  neutral f → seq_at (update_call f p c) q = seq_at c q.
Proof.
  intros Hf. unfold seq_at. rewrite update_call_lookup.
  case_decide; [|done]. destruct (calls c !! q) as [call|]; [|done].
  simpl. f_equal. apply Hf.
Qed.

Lemma chan_at_update_neutral f p c q :
  neutral f → chan_at (update_call f p c) q = chan_at c q.
Proof.
  intros Hf. unfold chan_at. rewrite update_call_lookup.
  case_decide; [|done]. destruct (calls c !! q) as [call|]; [|done].
  simpl. f_equal. apply Hf.
Qed.

(** The invariant reads a client only through these. *)
Lemma inv_ext c c' :
  pending c' = pending c →
  shutdown c' = shutdown c →
  sending c' = sending c →
  (∀ p, signals p (trace c') = signals p (trace c)) →
  (∀ p, seq_at c' p = seq_at c p) →
  (∀ p, chan_at c' p = chan_at c p) →
  inv c → inv c'.
Proof.
  intros Hp Hs Hsd Htr Hsq Hch [H1 H2 H3 H4 H5 H6].
  split; intros *; rewrite ?Hp, ?Hs, ?Hsd, ?Htr, ?Hsq, ?Hch.
  - apply H1.
  - apply H2.
  - apply H3.
  - intros Hsh s p. rewrite Htr. by apply H4.
  - apply H5.
  - apply H6.
Qed.

Lemma inv_update_neutral f p c : neutral f → inv c → inv (update_call f p c).
Proof.
  intros Hf. destruct (update_call_fields f p c) as (_ & Hp & _ & Hs & Hsd & Ht).
  apply inv_ext; try done.
  - intros q. by rewrite Ht.
  - intros q. by apply seq_at_update_neutral.
  - intros q. by apply chan_at_update_neutral.
Qed.

Lemma inv_log a c :
  (∀ p, a ≠ Signal p) → inv c → inv (log a c).
Proof.
  intros Ha. apply inv_ext; try done.
  intros p. simpl. rewrite signals_app. destruct a; try lia.
  by destruct (Ha p0).
Qed.

Lemma inv_NewClient : inv NewClient.
Proof.
  split; simpl; try done. intros p. lia.
Qed.

Lemma set_pending_id c : set_pending (pending c) c = c.
Proof. by destruct c. Qed.

Lemma removeCall_eq s c :
  removeCall s c = (pending c !! s, set_pending (delete s (pending c)) c).
Proof.
  unfold removeCall. destruct (pending c !! s) eqn:E; [done|].
  by rewrite delete_id, set_pending_id.
Qed.

Lemma inv_removeCall s c : inv c → inv (snd (removeCall s c)).
Proof.
  rewrite removeCall_eq. simpl. intros [H1 H2 H3 H4 H5 H6].
  split; simpl; try done.
  - intros s' p [_ H]%lookup_delete_Some. by apply H1.
  - intros Hsh s' p [_ H]%lookup_delete_Some. by eapply H4.
  - intros p Hp. destruct (H5 _ Hp) as (sp & Hsp & Hcase).
    exists sp. split; [done|].
    destruct (decide (s = sp)) as [->|Hne].
    + right. apply lookup_delete_eq.
    + rewrite lookup_delete_ne by done. exact Hcase.
Qed.

(** [call.done()] on a call that was not signalled yet does not block. *)
Lemma done_unsignalled p c :
  inv c → is_Some (seq_at c p) → signals p (trace c) = 0%nat →
  ∃ call, calls c !! p = Some call
    ∧ done p c = Some (log (Signal p)
                         (update_call (with_buf (buf (Done call) ++ [p])) p c)).
Proof.
  intros Hinv [s Hs] Hsig. unfold seq_at in Hs.
  destruct (calls c !! p) as [call|] eqn:E; [|done].
  exists call. split; [done|]. unfold done. rewrite E.
  destruct (inv_chan c Hinv p (Done call)) as [Hlen Hcap].
  { unfold chan_at. by rewrite E. }
  assert (Nat.ltb (length (buf (Done call))) (cap (Done call)) = true) as ->;
    [|done].
  apply Nat.ltb_lt. lia.
Qed.

(** The invariant after [call.done()], for a call that was not signalled
    and is no longer pending, or is pending on a client that has just
    been shut down. *)
Lemma inv_done p c :
  inv c → is_Some (seq_at c p) → signals p (trace c) = 0%nat →
  (∀ s, pending c !! s = Some p → shutdown c = true) →
  (sending c = Some p → ∀ s, seq_at c p = Some s → pending c !! s = None) →
  ∃ c', done p c = Some c'
    ∧ inv c'
    ∧ seq c' = seq c ∧ pending c' = pending c ∧ shutdown c' = shutdown c
    ∧ sending c' = sending c
    ∧ trace c' = (trace c ++ [Signal p])%list
    ∧ (∀ q, seq_at c' q = seq_at c q).
Proof.
  intros Hinv Hp Hsig Hpend Hsend.
  destruct (done_unsignalled p c Hinv Hp Hsig) as (call & Hcall & ->).
  eexists. split; [done|].
  set (f := with_buf (buf (Done call) ++ [p])).
  destruct (update_call_fields f p c) as (Hsq & Hpd & _ & Hsh & Hsd & Htr).
  assert (Hseq : ∀ q, seq_at (log (Signal p) (update_call f p c)) q = seq_at c q).
  { intros q. unfold seq_at. simpl. rewrite update_call_lookup.
    case_decide; [|done]. by destruct (calls c !! q). }
  assert (Hsigs : ∀ q, signals q (trace (log (Signal p) (update_call f p c))) =
                        (signals q (trace c) + if Nat.eqb q p then 1 else 0)%nat).
  { intros q. simpl. by rewrite signals_app, Htr. }
  split; [|simpl; rewrite ?Htr; done].
  destruct Hinv as [H1 H2 H3 H4 H5 H6].
  split; simpl; rewrite ?Hpd, ?Hsh, ?Hsd.
  - intros s q Hq. rewrite Hseq. by apply H1.
  - intros q Hq. rewrite Hseq in Hq. rewrite Hsigs, H2 by done.
    destruct (Nat.eqb_spec q p) as [->|]; [|done].
    destruct Hp as [? Hp]. congruence.
  - intros q. rewrite Hsigs.
    destruct (Nat.eqb_spec q p) as [->|]; [lia|]. specialize (H3 q). lia.
  - intros Hshut s q Hq. rewrite Hsigs.
    destruct (Nat.eqb_spec q p) as [->|].
    + apply Hpend in Hq. congruence.
    + rewrite (H4 Hshut s q Hq). done.
  - intros q Hq. destruct (H5 _ Hq) as (s & Hs & Hcase).
    exists s. rewrite Hseq, Hsigs. split; [done|].
    destruct (Nat.eqb_spec q p) as [->|].
    + right. by apply Hsend.
    + destruct Hcase as [[? ->]|?]; [left|right]; done.
  - intros q ch. unfold chan_at. simpl. rewrite update_call_lookup, Hsigs.
    case_decide as Hqp.
    + subst q. rewrite Hcall. simpl. intros [= <-]. simpl.
      rewrite Nat.eqb_refl, length_app. simpl.
      destruct (H6 p (Done call)) as [Hlen Hcap];
        [unfold chan_at; by rewrite Hcall|].
      split; [lia|done].
    + intros Hch. destruct (H6 q ch Hch) as [Hlen Hcap]. split; [lia|done].
Qed.

(** Whether [p] is one of the calls of the list [ps] of pending entries. *)
Definition among (p : nat) (ps : list (Z * nat)) : nat :=
  if bool_decide (p ∈ ps.*2) then 1%nat else 0%nat.

(** The loop of [terminateCalls] signals each call it visits, once, and
    does not block. *)
Lemma terminateCalls_range_spec e ps :
  ∀ c, inv c → shutdown c = true → sending c = None →
    NoDup ps.*2 →
    (∀ p, p ∈ ps.*2 → is_Some (seq_at c p) ∧ signals p (trace c) = 0%nat) →
    ∃ c', terminateCalls_range e ps c = Some c'
      ∧ inv c'
      ∧ seq c' = seq c ∧ pending c' = pending c ∧ shutdown c' = true
      ∧ sending c' = None
      ∧ (∀ q, seq_at c' q = seq_at c q)
      ∧ (∀ q, signals q (trace c') = (signals q (trace c) + among q ps)%nat).
Proof.
  induction ps as [|[s p] rest IH]; intros c Hinv Hsh Hsd Hnd Hall.
  - exists c. simpl. do 7 (split; [done|]). intros q. unfold among.
    case_bool_decide as Hq; [by apply elem_of_nil in Hq | lia].
  - simpl in Hnd. apply NoDup_cons in Hnd as [Hnotin Hnd].
    destruct (Hall p) as [Hp Hsig]; [simpl; apply list_elem_of_here|].
    set (c0 := update_call (with_Call_Error e) p c).
    pose proof (neutral_with_Call_Error e) as Hneutral.
    destruct (update_call_fields (with_Call_Error e) p c)
      as (Hsq0 & Hpd0 & _ & Hsh0 & Hsd0 & Htr0).
    fold c0 in Hsq0, Hpd0, Hsh0, Hsd0, Htr0.
    destruct (inv_done p c0) as (c1 & Hdone & Hinv1 & Hsq1 & Hpd1 & Hsh1 & Hsd1
                                    & Htr1 & Hseq1).
    + by apply inv_update_neutral.
    + unfold c0. by rewrite seq_at_update_neutral.
    + by rewrite Htr0.
    + intros _ _. by rewrite Hsh0.
    + rewrite Hsd0, Hsd. done.
    + destruct (IH c1) as (c' & Hrun & Hinv' & Hsq' & Hpd' & Hsh' & Hsd'
                              & Hseq' & Hsig'); try done.
      * by rewrite Hsh1, Hsh0.
      * by rewrite Hsd1, Hsd0.
      * intros q Hq. destruct (Hall q) as [Hq1 Hq2];
          [simpl; by apply list_elem_of_further|].
        rewrite Hseq1. unfold c0 at 1. rewrite seq_at_update_neutral by done.
        split; [done|]. rewrite Htr1, signals_app, Htr0, Hq2.
        destruct (Nat.eqb_spec q p) as [->|]; done.
      * exists c'. simpl. fold c0. rewrite Hdone.
        split; [done|]. split; [done|].
        split; [congruence|]. split; [congruence|].
        split; [done|]. split; [done|]. split.
        -- intros q. rewrite Hseq', Hseq1. unfold c0.
           by apply seq_at_update_neutral.
        -- intros q. rewrite Hsig', Htr1, signals_app, Htr0.
           unfold among. simpl.
           destruct (Nat.eqb_spec q p) as [->|Hne].
           ++ rewrite (bool_decide_eq_false_2 (p ∈ rest.*2)) by done.
              rewrite bool_decide_eq_true_2 by apply list_elem_of_here. lia.
           ++ destruct (decide (q ∈ rest.*2)).
              ** rewrite !bool_decide_eq_true_2;
                   [lia | by apply list_elem_of_further | done].
              ** rewrite !bool_decide_eq_false_2; [lia | | done].
                 by intros [?|?]%elem_of_cons.
Qed.

Lemma inv_set_shutdown c : inv c → inv (set_shutdown true c).
Proof. intros [H1 H2 H3 H4 H5 H6]. by split. Qed.

(** No call is pending under two sequence numbers. *)
Lemma pending_NoDup c : inv c → NoDup (map_to_list (pending c)).*2.
Proof.
  intros Hinv. apply NoDup_fmap_2_strong; [|apply NoDup_map_to_list].
  intros [s1 p1] [s2 p2] H1%elem_of_map_to_list H2%elem_of_map_to_list Heq.
  simpl in Heq. subst p2.
  apply (inv_valid c Hinv) in H1, H2. congruence.
Qed.

Lemma among_pending c s p :
  pending c !! s = Some p → among p (map_to_list (pending c)) = 1%nat.
Proof.
  intros Hs. unfold among. rewrite bool_decide_eq_true_2; [done|].
  apply list_elem_of_fmap. exists (s, p). split; [done|].
  by apply elem_of_map_to_list.
Qed.

Lemma among_not_pending c p :
  (∀ s, pending c !! s ≠ Some p) → among p (map_to_list (pending c)) = 0%nat.
Proof.
  intros Hs. unfold among. rewrite bool_decide_eq_false_2; [done|].
  intros [[s q] [-> Hin%elem_of_map_to_list]]%list_elem_of_fmap.
  by apply (Hs s).
Qed.

(** [terminateCalls] on a client that is not shut down and on which no
    send is going on: it does not block, and signals exactly the calls
    that are pending. *)
Lemma terminateCalls_spec e c :
  inv c → shutdown c = false → sending c = None →
  ∃ c', terminateCalls e c = Some c'
    ∧ inv c'
    ∧ seq c' = seq c ∧ pending c' = pending c ∧ shutdown c' = true
    ∧ sending c' = None
    ∧ (∀ q, seq_at c' q = seq_at c q)
    ∧ (∀ q, signals q (trace c') =
            (signals q (trace c) + among q (map_to_list (pending c)))%nat).
Proof.
  intros Hinv Hsh Hsd. unfold terminateCalls.
  destruct (terminateCalls_range_spec e (map_to_list (pending c))
              (set_shutdown true c)) as (c' & Hrun & Hrest); try done.
  - by apply inv_set_shutdown.
  - by apply pending_NoDup.
  - intros p [[s q] [-> Hin%elem_of_map_to_list]]%list_elem_of_fmap. simpl.
    split.
    + change (is_Some (seq_at c q)). rewrite (inv_valid c Hinv s q Hin).
      by eexists.
    + by apply (inv_live c Hinv Hsh s q).
  - exists c'. split; [done|]. exact Hrest.
Qed.

(** [call.done()] on a call that is stored but neither pending nor
    signalled. *)
Lemma done_removed p s c :
  inv c → seq_at c p = Some s → pending c !! s = None →
  signals p (trace c) = 0%nat →
  ∃ c', done p c = Some c'
    ∧ inv c'
    ∧ seq c' = seq c ∧ pending c' = pending c ∧ shutdown c' = shutdown c
    ∧ sending c' = sending c
    ∧ trace c' = (trace c ++ [Signal p])%list
    ∧ (∀ q, seq_at c' q = seq_at c q).
Proof.
  intros Hinv Hp Hnone Hsig. apply inv_done; [done | by eexists | done | |].
  - intros s' Hs'. pose proof (inv_valid c Hinv _ _ Hs'). congruence.
  - intros _ s' Hs'. congruence.
Qed.

(** How a step may change a client.  [go] says whether the step is a
    [Go].
    - A stored call keeps its [Seq].
    - The signals of a call stay, or grow by one for a call that was
      pending.
    - A pending entry was pending, or was registered by this step under
      the current [seq] for a call allocated by it.
    - [seq] stays, or is incremented by a [Go].
    - A stored call was stored, or was allocated by this [Go] with the
      current [seq]. *)
Record succ (go : bool) (c c' : Client) : Prop := {
  succ_seq_at : ∀ q s, seq_at c q = Some s → seq_at c' q = Some s;
  succ_signals : ∀ q,
    signals q (trace c') = signals q (trace c)
    ∨ (signals q (trace c') = S (signals q (trace c))
       ∧ ∃ s, pending c !! s = Some q);
  succ_pending : ∀ s q, pending c' !! s = Some q →
    pending c !! s = Some q
    ∨ (go = true ∧ s = seq c ∧ seq_at c q = None);
  succ_sending : ∀ q, sending c' = Some q →
    sending c = Some q ∨ seq_at c q = None;
  succ_seq : seq c' = seq c
             ∨ (go = true ∧ seq c' = wrap_uint64 (seq c + 1));
  succ_stored : ∀ q s, seq_at c' q = Some s →
    seq_at c q = Some s
    ∨ (go = true ∧ s = seq c ∧ seq c' = wrap_uint64 (seq c + 1))
}.

Lemma succ_refl go c : succ go c c.
Proof. split; auto. Qed.


Lemma succ_quiet c c' :
  (∀ q, seq_at c' q = seq_at c q) →
  (∀ q, signals q (trace c') = signals q (trace c)) →
  (∀ s q, pending c' !! s = Some q → pending c !! s = Some q) →
  (sending c' = sending c ∨ sending c' = None) →
  seq c' = seq c →
  succ false c c'.
Proof.
  intros Hsq Hsig Hpd Hsd Hseq. split; auto.
  - intros q s. by rewrite Hsq.
  - intros q Hq. left. destruct Hsd as [<-|Hn]; congruence.
  - intros q s. rewrite Hsq. by left.
Qed.

Lemma inv_set_sending_None c : inv c → inv (set_sending None c).
Proof. intros [H1 H2 H3 H4 H5 H6]. by split. Qed.

Lemma seq_at_calls c p s :
  seq_at c p = Some s → ∃ call, calls c !! p = Some call ∧ Call_Seq call = s.
Proof.
  unfold seq_at. destruct (calls c !! p) as [call|]; [|done].
  intros [= <-]. by exists call.
Qed.

(** [call.done()] for the call [p] that [removeCall] has just taken from
    under [s]: [c0] is the client before the removal, [c] the client
    after it and after updates that touch neither a [Seq] nor a channel
    nor the signals. *)
Lemma done_after_remove c0 c p s :
  inv c →
  pending c0 !! s = Some p →
  signals p (trace c0) = 0%nat →
  seq_at c0 p = Some s →
  (∀ q, seq_at c q = seq_at c0 q) →
  (∀ q, signals q (trace c) = signals q (trace c0)) →
  pending c = delete s (pending c0) →
  sending c = sending c0 → seq c = seq c0 → shutdown c = shutdown c0 →
  ∃ c', done p c = Some c'
    ∧ inv c' ∧ succ false c0 c'
    ∧ signals p (trace c') = 1%nat
    ∧ pending c' = delete s (pending c0).
Proof.
  intros Hinv Hp Hsig Hs Hsq Htr Hpd Hsd Hseq Hsh.
  destruct (done_removed p s c) as (c' & Hdone & Hinv' & Hseq' & Hpd' & Hsh'
                                      & Hsd' & Htr' & Hsq').
  - done.
  - by rewrite Hsq.
  - rewrite Hpd. apply lookup_delete_eq.
  - by rewrite Htr.
  - exists c'. split; [done|]. split; [done|].
    assert (Hsigs : ∀ q, signals q (trace c') =
              (signals q (trace c0) + if Nat.eqb q p then 1 else 0)%nat).
    { intros q. by rewrite Htr', signals_app, Htr. }
    split; [|split].
    + split.
      * intros q s'. by rewrite Hsq', Hsq.
      * intros q. rewrite Hsigs.
        destruct (Nat.eqb_spec q p) as [->|]; [right|left; lia].
        split; [lia|]. by exists s.
      * intros s' q. rewrite Hpd', Hpd. intros [_ ?]%lookup_delete_Some.
        by left.
      * intros q. rewrite Hsd', Hsd. by left.
      * left. congruence.
      * intros q s'. rewrite Hsq', Hsq. by left.
    + rewrite Hsigs, Hsig, Nat.eqb_refl. done.
    + congruence.
Qed.

Lemma succ_set_sending_None go c c' :
  succ go c c' → succ go c (set_sending None c').
Proof. intros [H1 H2 H3 H4 H5 H6]. by split. Qed.

(** A [send] whose write fails while its call is still pending: the
    call is removed and signalled. *)
Lemma send_written_failure e c p s :
  inv c → sending c = Some p → seq_at c p = Some s →
  pending c !! s = Some p →
  ∃ c', send_written (Some e) c = Next c'
    ∧ inv c' ∧ succ false c c'
    ∧ signals p (trace c') = 1%nat
    ∧ pending c' = delete s (pending c).
Proof.
  intros Hinv Hsd Hs Hpd. unfold send_written. rewrite Hsd.
  destruct (seq_at_calls _ _ _ Hs) as (call & Hcall & Hseq). rewrite Hcall, Hseq.
  set (w := Write _ _).
  assert (Hsig : signals p (trace c) = 0%nat).
  { destruct (inv_sending c Hinv p Hsd) as (s' & Hs' & [[_ ?]|Hnone]); [done|].
    congruence. }
  unfold removeCall. simpl. rewrite Hpd.
  set (c2 := set_pending (delete s (pending c)) (log w c)).
  assert (Hinv2 : inv c2).
  { pose proof (inv_removeCall s _ (inv_log w c ltac:(done) Hinv)) as H.
    by rewrite removeCall_eq in H. }
  pose proof (neutral_with_Call_Error e) as Hn.
  destruct (update_call_fields (with_Call_Error e) p c2)
    as (Hsq3 & Hpd3 & _ & Hsh3 & Hsd3 & Htr3).
  destruct (done_after_remove c (update_call (with_Call_Error e) p c2) p s)
    as (c4 & -> & Hinv4 & Hsucc & Hone & Hpd4); try done.
  - by apply inv_update_neutral.
  - intros q. by rewrite seq_at_update_neutral.
  - intros q. rewrite Htr3. simpl. rewrite signals_app. simpl. lia.
  - exists (set_sending None c4). split; [done|].
    split; [by apply inv_set_sending_None|].
    split; [by apply succ_set_sending_None|]. done.
Qed.

(** The end of a [send]. *)
Lemma send_written_spec werr c :
  inv c → ∃ c', send_written werr c = Next c' ∧ inv c' ∧ succ false c c'.
Proof.
  intros Hinv.
  destruct (sending c) as [p|] eqn:Hsd;
    [|exists c; unfold send_written; rewrite Hsd; by auto using succ_refl].
  destruct (inv_sending c Hinv p Hsd) as (s & Hs & Hcase).
  assert (Hquiet : ∀ w, (∀ q, w ≠ Signal q) →
            inv (set_sending None (log w c))
            ∧ succ false c (set_sending None (log w c))).
  { intros w Hw. split; [by apply inv_set_sending_None, inv_log|].
    apply succ_quiet; simpl; auto.
    intros q. rewrite signals_app. destruct w; try lia. by destruct (Hw p0). }
  destruct werr as [e|], Hcase as [[Hpd _]|Hnone].
  - destruct (send_written_failure e c p s) as (c' & ? & ? & ? & _); try done.
    by exists c'.
  - unfold send_written. rewrite Hsd.
    destruct (seq_at_calls _ _ _ Hs) as (call & -> & ->).
    unfold removeCall. simpl. rewrite Hnone.
    eexists. split; [done|]. by apply Hquiet.
  - unfold send_written. rewrite Hsd.
    destruct (seq_at_calls _ _ _ Hs) as (call & -> & ->).
    eexists. split; [done|]. by apply Hquiet.
  - unfold send_written. rewrite Hsd.
    destruct (seq_at_calls _ _ _ Hs) as (call & -> & ->).
    eexists. split; [done|]. by apply Hquiet.
Qed.

(** A response for a pending call: the call is removed and signalled,
    whether the header carries an error, the body is decoded, or the
    body cannot be decoded. *)
Lemma receive_response h br c p :
  inv c → shutdown c = false → pending c !! Seq h = Some p →
  ∃ c', receive (HeaderOk h) br c = Next c'
    ∧ inv c' ∧ succ false c c'
    ∧ signals p (trace c') = 1%nat
    ∧ pending c' = delete (Seq h) (pending c).
Proof.
  intros Hinv Hsh Hp. unfold receive. rewrite Hsh.
  unfold removeCall. simpl. rewrite Hp.
  pose proof (inv_live c Hinv Hsh _ _ Hp) as Hsig.
  pose proof (inv_valid c Hinv _ _ Hp) as Hs.
  set (c2 := set_pending (delete (Seq h) (pending c)) (log ReadHeader c)).
  assert (Hinv2 : inv c2).
  { pose proof (inv_removeCall (Seq h) _ (inv_log ReadHeader c ltac:(done) Hinv))
      as H.
    by rewrite removeCall_eq in H. }
  assert (Hquiet : ∀ a f, neutral f → (∀ q, a ≠ Signal q) →
            ∃ c', done p (log a (update_call f p c2)) = Some c'
              ∧ inv c' ∧ succ false c c' ∧ signals p (trace c') = 1%nat
              ∧ pending c' = delete (Seq h) (pending c)).
  { intros a f Hf Ha.
    destruct (update_call_fields f p c2) as (Hsq3 & Hpd3 & _ & Hsh3 & Hsd3 & Htr3).
    apply (done_after_remove c (log a (update_call f p c2)) p (Seq h));
      try done.
    - by apply inv_log, inv_update_neutral.
    - intros q. change (seq_at (update_call f p c2) q = seq_at c q).
      by rewrite seq_at_update_neutral.
    - intros q. simpl. rewrite signals_app, Htr3. simpl.
      rewrite signals_app. simpl. destruct a; try lia. by destruct (Ha p0). }
  assert (Hquiet' : ∀ a f, neutral f → (∀ q, a ≠ Signal q) →
            ∃ c', done p (update_call f p (log a c2)) = Some c'
              ∧ inv c' ∧ succ false c c' ∧ signals p (trace c') = 1%nat
              ∧ pending c' = delete (Seq h) (pending c)).
  { intros a f Hf Ha.
    destruct (update_call_fields f p (log a c2))
      as (Hsq3 & Hpd3 & _ & Hsh3 & Hsd3 & Htr3).
    apply (done_after_remove c (update_call f p (log a c2)) p (Seq h));
      try done.
    - by apply inv_update_neutral, inv_log.
    - intros q. by rewrite seq_at_update_neutral.
    - intros q. rewrite Htr3. simpl. rewrite !signals_app. simpl.
      destruct a; try lia. by destruct (Ha p0). }
  destruct (negb (String.eqb (Error h) "")).
  - destruct (Hquiet (ReadBody None) (with_Call_Error (Error h)))
      as (c' & -> & ?); [apply neutral_with_Call_Error | done |].
    by exists c'.
  - destruct br as [e|v].
    + destruct (Hquiet' (ReadBody (Some p))
                  (with_Call_Error ("reading body " ++ e)))
        as (c' & -> & ?); [apply neutral_with_Call_Error | done |].
      by exists c'.
    + destruct (Hquiet' (ReadBody (Some p)) (with_Reply v))
        as (c' & -> & ?); [apply neutral_with_Reply | done |].
      by exists c'.
Qed.

(** A response for a sequence number that is not pending: the body is
    read into nothing, and nothing else happens. *)
Lemma receive_unknown h br c :
  shutdown c = false → pending c !! Seq h = None →
  receive (HeaderOk h) br c = Next (log (ReadBody None) (log ReadHeader c)).
Proof.
  intros Hsh Hp. unfold receive. rewrite Hsh. unfold removeCall. simpl.
  by rewrite Hp.
Qed.

(** A failed [ReadHeader], when no send is going on: every pending call
    is signalled. *)
Lemma receive_failure e br c :
  inv c → shutdown c = false → sending c = None →
  ∃ c', receive (HeaderErr e) br c = Next c'
    ∧ inv c' ∧ succ false c c'
    ∧ shutdown c' = true
    ∧ ∀ s p, pending c !! s = Some p → signals p (trace c') = 1%nat.
Proof.
  intros Hinv Hsh Hsd. unfold receive. rewrite Hsh, Hsd.
  destruct (terminateCalls_spec e (log ReadHeader c))
    as (c' & -> & Hinv' & Hseq' & Hpd' & Hsh' & Hsd' & Hsq' & Hsig');
    [by apply inv_log | done | done |].
  exists c'. split; [done|]. split; [done|]. split; [|split; [done|]].
  - split.
    + intros q s. by rewrite Hsq'.
    + intros q. rewrite Hsig'. simpl. rewrite signals_app. simpl.
      unfold among. case_bool_decide as Hq; [right|left; lia].
      split; [lia|].
      apply list_elem_of_fmap in Hq as [[s q'] [-> Hin%elem_of_map_to_list]].
      by exists s.
    + intros s q. rewrite Hpd'. by left.
    + intros q. by rewrite Hsd'.
    + by left.
    + intros q s. rewrite Hsq'. by left.
  - intros s p Hp. rewrite Hsig'.
    rewrite (among_pending (log ReadHeader c) s p Hp).
    simpl. rewrite signals_app. simpl.
    rewrite (inv_live c Hinv Hsh s p Hp). done.
Qed.

(** One pass of [receive]. *)
Lemma receive_spec hr br c :
  inv c → ∃ c', receive hr br c = Next c' ∧ inv c' ∧ succ false c c'.
Proof.
  intros Hinv.
  destruct (shutdown c) eqn:Hsh;
    [exists c; unfold receive; rewrite Hsh; by auto using succ_refl|].
  destruct hr as [e|h].
  - destruct (sending c) as [p|] eqn:Hsd.
    + exists c. unfold receive. rewrite Hsh, Hsd. by auto using succ_refl.
    + destruct (receive_failure e br c) as (c' & ? & ? & ? & _); try done.
      by exists c'.
  - destruct (pending c !! Seq h) as [p|] eqn:Hp.
    + destruct (receive_response h br c p) as (c' & ? & ? & ? & _); try done.
      by exists c'.
    + rewrite receive_unknown by done.
      eexists. split; [done|]. split; [by apply inv_log, inv_log|].
      apply succ_quiet; simpl; auto.
      intros q. rewrite !signals_app. simpl. lia.
Qed.

(** The call [Go] allocates. *)
Definition new_call (serviceMethod args reply : string) (done : option nat)
    (c : Client) : Call :=
  {| Call_Seq := seq c; ServerMethod := serviceMethod; Args := args;
     Reply := reply; Call_Error := None;
     Done := {| cap := default 10%nat done; buf := [] |} |}.

(** The client [Go] leaves when it gets the [sending] mutex. *)
Definition registered (serviceMethod args reply : string) (done : option nat)
    (c : Client) : Client :=
  {| seq := wrap_uint64 (seq c + 1);
     pending := <[seq c := length (calls c)]> (pending c);
     closing := closing c; shutdown := shutdown c;
     sending := Some (length (calls c));
     calls := calls c ++ [new_call serviceMethod args reply done c];
     trace := trace c |}.

Lemma Go_registers sm args reply done c :
  done ≠ Some 0%nat → sending c = None →
  Go sm args reply done c = Next (registered sm args reply done c).
Proof.
  intros Hdone Hsd. unfold Go. rewrite Hsd.
  assert (Next (snd (registerCall (length (calls c))
            (set_sending (Some (length (calls c)))
               (set_calls (calls c ++ [new_call sm args reply done c]) c))))
          = Next (registered sm args reply done c)) as Heq.
  { f_equal. unfold registerCall, update_call. simpl.
    rewrite lookup_app_r, Nat.sub_diag by lia. simpl.
    unfold set_calls, registered. simpl. f_equal.
    rewrite insert_app_r_alt, Nat.sub_diag by lia. done. }
  destruct done as [[|n]|]; [done | exact Heq | exact Heq].
Qed.

Lemma seq_at_registered sm args reply done c q :
  seq_at (registered sm args reply done c) q =
    if decide (q = length (calls c)) then Some (seq c) else seq_at c q.
Proof.
  unfold seq_at. simpl. rewrite lookup_app.
  case_decide as Hq.
  - subst q. rewrite (proj2 (lookup_ge_None _ _)) by lia.
    by rewrite Nat.sub_diag.
  - destruct (calls c !! q) as [call|] eqn:E; [done|].
    apply lookup_ge_None in E.
    destruct (q - length (calls c))%nat as [|n] eqn:En; [lia|done].
Qed.

Lemma chan_at_registered sm args reply done c q :
  chan_at (registered sm args reply done c) q =
    if decide (q = length (calls c))
    then Some {| cap := default 10%nat done; buf := [] |}
    else chan_at c q.
Proof.
  unfold chan_at. simpl. rewrite lookup_app.
  case_decide as Hq.
  - subst q. rewrite (proj2 (lookup_ge_None _ _)) by lia.
    by rewrite Nat.sub_diag.
  - destruct (calls c !! q) as [call|] eqn:E; [done|].
    apply lookup_ge_None in E.
    destruct (q - length (calls c))%nat as [|n] eqn:En; [lia|done].
Qed.

Lemma seq_at_fresh c : seq_at c (length (calls c)) = None.
Proof. unfold seq_at. by rewrite (proj2 (lookup_ge_None _ _)) by lia. Qed.

Lemma inv_registered sm args reply done c :
  done ≠ Some 0%nat → inv c → inv (registered sm args reply done c).
Proof.
  intros Hdone Hinv. pose proof (seq_at_fresh c) as Hfresh.
  pose proof (inv_fresh c Hinv _ Hfresh) as Hsig0.
  destruct Hinv as [H1 H2 H3 H4 H5 H6].
  split; simpl.
  - intros s p. rewrite seq_at_registered, lookup_insert.
    case_decide as Hs.
    + intros [= <-]. by rewrite decide_True, Hs.
    + intros Hp. apply H1 in Hp as Hp'. case_decide; [congruence|done].
  - intros p. rewrite seq_at_registered. case_decide; [done|]. apply H2.
  - apply H3.
  - intros Hsh s p. rewrite lookup_insert. case_decide.
    + by intros [= <-].
    + by apply H4.
  - intros p [= <-]. exists (seq c). rewrite seq_at_registered, decide_True by done.
    split; [done|]. left. by rewrite lookup_insert_eq.
  - intros p ch. rewrite chan_at_registered. case_decide.
    + intros [= <-]. simpl. split; [lia|].
      destruct done as [[|n]|]; simpl; [done | lia | lia].
    + apply H6.
Qed.

Lemma succ_registered sm args reply done c :
  sending c = None → succ true c (registered sm args reply done c).
Proof.
  intros Hsd. pose proof (seq_at_fresh c) as Hfresh. split; simpl.
  - intros q s Hq. rewrite seq_at_registered. case_decide; [congruence|done].
  - by left.
  - intros s q. rewrite lookup_insert. case_decide.
    + intros [= <-]. by right.
    + by left.
  - intros q [= <-]. by right.
  - by right.
  - intros q s. rewrite seq_at_registered. case_decide.
    + intros [= <-]. by right.
    + by left.
Qed.

(** [Go]. *)
Lemma Go_spec sm args reply done c :
  inv c →
  match Go sm args reply done c with
  | Next c' => inv c' ∧ succ true c c'
  | Blocks => False
  | Panics _ => done = Some 0%nat
  end.
Proof.
  intros Hinv. destruct (decide (done = Some 0%nat)) as [->|Hdone]; [done|].
  destruct (sending c) as [p|] eqn:Hsd.
  - unfold Go. rewrite Hsd. destruct done as [[|n]|]; by auto using succ_refl.
  - rewrite Go_registers by done.
    split; [by apply inv_registered | by apply succ_registered].
Qed.

(** The two ways out of the [select] of [Call]. *)
Lemma Call_ctxDone_spec p ctxErr c :
  inv c →
  inv (snd (Call_ctxDone p ctxErr c))
  ∧ succ false c (snd (Call_ctxDone p ctxErr c)).
Proof.
  intros Hinv. unfold Call_ctxDone.
  destruct (calls c !! p) as [call|]; simpl; [|by auto using succ_refl].
  split; [by apply inv_removeCall|].
  rewrite removeCall_eq. simpl. apply succ_quiet; simpl; auto.
  by intros s q [_ ?]%lookup_delete_Some.
Qed.

Lemma Call_recvDone_spec p c r c' :
  inv c → Call_recvDone p c = Some (r, c') → inv c' ∧ succ false c c'.
Proof.
  intros Hinv. unfold Call_recvDone.
  destruct (calls c !! p) as [call|] eqn:Hcall; [|done].
  destruct (buf (Done call)) as [|q rest] eqn:Hbuf; [done|].
  intros [= _ <-].
  destruct (update_call_fields (with_buf rest) p c)
    as (Hsq & Hpd & _ & Hsh & Hsd & Htr).
  assert (Hseq : ∀ q, seq_at (update_call (with_buf rest) p c) q = seq_at c q).
  { intros q'. unfold seq_at. rewrite update_call_lookup.
    case_decide; [|done]. by destruct (calls c !! q'). }
  split.
  - destruct Hinv as [H1 H2 H3 H4 H5 H6].
    split; rewrite ?Hpd, ?Hsh, ?Hsd, ?Htr.
    + intros s q'. rewrite Hseq. apply H1.
    + intros q'. rewrite Hseq. apply H2.
    + apply H3.
    + apply H4.
    + intros q' Hq'. rewrite Hseq. by apply H5.
    + intros q' ch. unfold chan_at. rewrite update_call_lookup.
      case_decide as Hq'; [|apply H6]. subst q'. rewrite Hcall. simpl.
      intros [= <-]. simpl.
      destruct (H6 p (Done call)) as [Hlen Hcap];
        [unfold chan_at; by rewrite Hcall|].
      rewrite Hbuf in Hlen. simpl in Hlen. split; [lia|done].
  - apply succ_quiet; auto. intros q'. by rewrite Htr.
    intros s q'. by rewrite Hpd.
Qed.

Definition is_Go (ev : event) : bool :=
  match ev with EvGo _ _ _ _ => true | _ => false end.

(** Every step keeps the invariant; none blocks. *)
Lemma step_spec ev c :
  inv c →
  match step ev c with
  | Next c' => inv c' ∧ succ (is_Go ev) c c'
  | Blocks => False
  | Panics _ => True
  end.
Proof.
  intros Hinv. destruct ev as [sm args reply done|werr|hr br|p ctxErr|p]; simpl.
  - pose proof (Go_spec sm args reply done c Hinv) as H.
    by destruct (Go sm args reply done c).
  - by destruct (send_written_spec werr c Hinv) as (c' & -> & ? & ?).
  - by destruct (receive_spec hr br c Hinv) as (c' & -> & ? & ?).
  - case_bool_decide; [by auto using succ_refl|].
    by apply Call_ctxDone_spec.
  - destruct (Call_recvDone p c) as [[r c']|] eqn:E; [|by auto using succ_refl].
    by eapply Call_recvDone_spec.
Qed.

(** *** Runs *)

Lemma run_app evs1 evs2 c :
  run (evs1 ++ evs2) c =
    match run evs1 c with
    | Next c' => run evs2 c'
    | o => o
    end.
Proof.
  revert c. induction evs1 as [|ev evs1 IH]; intros c; simpl; [done|].
  destruct (step ev c); [apply IH | done | done].
Qed.

(** No run blocks, and every client it reaches has the invariant. *)
Lemma run_spec evs :
  ∀ c, inv c →
    match run evs c with
    | Next c' => inv c'
    | Blocks => False
    | Panics _ => True
    end.
Proof.
  induction evs as [|ev evs IH]; intros c Hinv; simpl; [done|].
  pose proof (step_spec ev c Hinv) as H.
  destruct (step ev c); [apply IH; tauto | done | done].
Qed.






(** *** Sequence numbers that have not wrapped around *)

(** [seq] is not negative and above the [Seq] of every stored call. *)
Definition bounded (c : Client) : Prop :=
  0 <= seq c ∧ ∀ q s, seq_at c q = Some s → 0 <= s < seq c.

Lemma count_Go_nonneg evs : 0 <= count_Go evs.
Proof. induction evs as [|[] evs IH]; simpl; lia. Qed.

Lemma count_Go_app evs1 evs2 :
  count_Go (evs1 ++ evs2) = count_Go evs1 + count_Go evs2.
Proof. induction evs1 as [|[] evs1 IH]; simpl; lia. Qed.

Lemma succ_bounded go c c' s :
  succ go c c' → bounded c →
  (go = true → seq c + 1 < 2 ^ 64) →
  pending c !! s = None → s < seq c →
  bounded c'
  ∧ seq c <= seq c' <= seq c + (if go then 1 else 0)
  ∧ pending c' !! s = None.
Proof.
  intros [H1 H2 H3 H4 H5 H6] [Hseq Hstored] Hgo Hnone Hlt.
  assert (Hwrap : go = true → wrap_uint64 (seq c + 1) = seq c + 1).
  { intros Hg. unfold wrap_uint64. apply Z.mod_small. specialize (Hgo Hg). lia. }
  assert (Hle : seq c <= seq c' <= seq c + (if go then 1 else 0)).
  { destruct H5 as [->|[Hg ->]].
    - destruct go; lia.
    - rewrite Hwrap, Hg by done. lia. }
  split; [split|split]; [lia| |done|].
  - intros q s' Hq. destruct (H6 _ _ Hq) as [Hold|(Hg & -> & Hnew)].
    + apply Hstored in Hold. lia.
    + rewrite Hnew, Hwrap by done. lia.
  - destruct (pending c' !! s) as [q|] eqn:E; [|done].
    destruct (H3 _ _ E) as [?|(_ & ? & _)]; [congruence | lia].
Qed.

(** While [seq] does not wrap around, a sequence number below it that
    is not pending is never pending again. *)
Lemma run_no_reuse evs s :
  ∀ c c', inv c → bounded c →
    seq c + count_Go evs < 2 ^ 64 →
    pending c !! s = None → s < seq c →
    run evs c = Next c' →
    bounded c'
    ∧ seq c <= seq c' <= seq c + count_Go evs
    ∧ pending c' !! s = None.
Proof.
  induction evs as [|ev evs IH]; intros c c' Hinv Hb Hno Hnone Hlt; simpl.
  - intros [= <-]. split; [done|]. split; [lia | done].
  - pose proof (step_spec ev c Hinv) as H.
    destruct (step ev c) as [c1| |]; [|done|done]. destruct H as [Hinv1 Hsucc].
    pose proof (count_Go_nonneg evs) as Hnn.
    assert (Hcount : count_Go (ev :: evs) =
                     (if is_Go ev then 1 else 0) + count_Go evs)
      by (by destruct ev).
    rewrite Hcount in Hno.
    destruct (succ_bounded _ _ _ s Hsucc Hb) as (Hb1 & Hle1 & Hnone1);
      [destruct (is_Go ev); [lia|done] | done | done |].
    intros Hrun.
    destruct (IH c1 c' Hinv1 Hb1) as (Hb' & Hle' & Hnone'); try done.
    + destruct (is_Go ev); lia.
    + lia.
    + split; [done|]. split; [|done]. change (count_Go (ev :: evs)) with
        (match ev with EvGo _ _ _ _ => 1 + count_Go evs | _ => count_Go evs end).
      destruct ev; simpl in *; lia.
Qed.

Lemma bounded_NewClient : bounded NewClient.
Proof. split; [done|]. intros q s. unfold seq_at. simpl. done. Qed.

End ClientFacts.

Section ClientClaims.

Import Codec Client.

(** The client a run from [NewClient] leads to. *)
Definition client_after (evs : list event) : Client :=
  match run evs NewClient with
  | Next c => c
  | _ => NewClient
  end.

Lemma reached_inv evs c : run evs NewClient = Next c → inv c.
Proof.
  intros Hrun. pose proof (run_spec evs NewClient inv_NewClient) as H.
  by rewrite Hrun in H.
Qed.

(** Before [seq] wraps around, it counts the calls registered. *)
Lemma reached_bounded evs c :
  run evs NewClient = Next c → count_Go evs < 2 ^ 64 →
  bounded c ∧ seq c <= count_Go evs ∧ pending c !! (-1) = None.
Proof.
  intros Hrun Hno.
  destruct (run_no_reuse evs (-1) NewClient c inv_NewClient bounded_NewClient)
    as (Hb & Hle & Hnone); [simpl; lia | done | done | done |].
  split; [done|]. split; [|done]. simpl in Hle. lia.
Qed.


(** A call through [Call], written out, and still waiting. *)
Definition call_in_flight : list event :=
  [EvGo "Bar.Timeout" "1" "0" (Some 1%nat); EvWritten None].




(** C6. When the [select] of [Call] takes the cancellation of the
    context, the call is removed from [pending] and [Call] returns the
    error "rpc client: call failed: " followed by the context's error.
    From then on, as long as [seq] has not wrapped around, no call is
    pending under that [Seq]: a response that arrives for it finds no
    call, and its body is read into nothing, with no other effect. *)
Theorem call_cancellation_drains_late_response
    (evs1 : list event) (c : Client) (p : nat) (call : Call) (ctxErr : string) :
  run evs1 NewClient = Next c →
  calls c !! p = Some call →
  fst (Call_ctxDone p ctxErr c) = "rpc client: call failed: " ++ ctxErr
  ∧ pending (snd (Call_ctxDone p ctxErr c)) !! Call_Seq call = None
  ∧ ∀ evs2 c2 h br,
      count_Go (evs1 ++ evs2) < 2 ^ 64 →
      run evs2 (snd (Call_ctxDone p ctxErr c)) = Next c2 →
      Seq h = Call_Seq call →
      shutdown c2 = false →
      pending c2 !! Seq h = None
      ∧ receive (HeaderOk h) br c2 =
          Next (log (ReadBody None) (log ReadHeader c2)).
Proof.
  intros Hrun Hcall. pose proof (reached_inv _ _ Hrun) as Hinv.
  destruct (Call_ctxDone_spec p ctxErr c Hinv) as [Hinv1 Hsucc].
  unfold Call_ctxDone in *. rewrite Hcall in *. rewrite removeCall_eq in *.
  simpl in *. split; [done|]. split; [apply lookup_delete_eq|].
  intros evs2 c2 h br Hno Hrun2 Hseq Hsh.
  rewrite count_Go_app in Hno.
  pose proof (count_Go_nonneg evs2) as Hnn.
  destruct (reached_bounded evs1 c Hrun) as (Hb & Hle & Hnone); [lia|].
  assert (Hlt : Call_Seq call < seq c).
  { destruct Hb as [_ Hb]. apply (Hb p). unfold seq_at. by rewrite Hcall. }
  destruct (succ_bounded false _ _ (-1) Hsucc Hb) as (Hb1 & _ & _);
    [done | done | destruct Hb; lia |].
  destruct (run_no_reuse evs2 (Call_Seq call) _ c2 Hinv1 Hb1)
    as (_ & _ & Hgone); try done.
  - simpl. lia.
  - simpl. apply lookup_delete_eq.
  - rewrite Hseq. split; [done|]. apply receive_unknown; [done|].
    by rewrite Hseq.
Qed.

Lemma call_cancellation_drains_late_response_witness :
  fst (Call_ctxDone 0 "context deadline exceeded" (client_after call_in_flight))
    = "rpc client: call failed: context deadline exceeded"
  ∧ pending (snd (Call_ctxDone 0 "context deadline exceeded"
                    (client_after call_in_flight))) !! 0 = None
  ∧ ∀ evs2 c2 h br,
      count_Go (call_in_flight ++ evs2) < 2 ^ 64 →
      run evs2 (snd (Call_ctxDone 0 "context deadline exceeded"
                       (client_after call_in_flight))) = Next c2 →
      Seq h = 0 →
      shutdown c2 = false →
      pending c2 !! Seq h = None
      ∧ receive (HeaderOk h) br c2 =
          Next (log (ReadBody None) (log ReadHeader c2)).
Proof.
  apply (call_cancellation_drains_late_response call_in_flight
           (client_after call_in_flight) 0
           {| Call_Seq := 0; ServerMethod := "Bar.Timeout"; Args := "1";
              Reply := "0"; Call_Error := None;
              Done := {| cap := 1; buf := [] |} |}
           "context deadline exceeded").
  - reflexivity.
  - reflexivity.
Defined.

End ClientClaims.

(** * More of the code *)

(** ** The registry: requests in sequence *)

Section RegistryMore.

Import Registry.

(** The range of [aliveServers] only deletes: whatever the order it
    visits the keys in, what it leaves was there before. *)
Lemma aliveServers_range_sub nowTime tmo order :
  ∀ m alive alive' m',
    aliveServers_range nowTime tmo order m alive = (alive', m') →
    ∀ k it, m' !! k = Some it → m !! k = Some it.
Proof.
  induction order as [|k rest IH]; intros m alive alive' m' Hrun k' it; simpl in Hrun.
  - by injection Hrun as <- <-.
  - destruct (m !! k) as [server|] eqn:Ek.
    + destruct (tmo <=? Sub nowTime (start server)).
      * intros H. eapply IH in H; [|exact Hrun].
        by apply lookup_delete_Some in H as [_ H].
      * by eapply IH.
    + by eapply IH.
Qed.

(** A request as [ServeHTTP] meets it: the order in which a GET would
    range over the map, the instant, and the request. *)
Record arrival := {
  arrival_order : list string;
  arrival_now : Z;
  arrival_req : Request
}.

(** The registry after a sequence of requests. *)
Definition serve_all (arrivals : list arrival) (r : GeeRegistry) : GeeRegistry :=
  fold_left (λ r a, snd (ServeHTTP (arrival_order a) (arrival_now a)
                           (arrival_req a) r))
    arrivals r.

Lemma ServeHTTP_keeps order now req r :
  keyed (servers r) →
  keyed (servers (snd (ServeHTTP order now req r)))
  ∧ timeout (snd (ServeHTTP order now req r)) = timeout r.
Proof.
  intros Hk. unfold ServeHTTP.
  destruct (String.eqb (Method req) "GET").
  - unfold aliveServers.
    destruct (aliveServers_range _ _ _ _ _) as [alive m] eqn:Hrun. simpl.
    split; [|done]. intros k it Hin. apply Hk.
    by eapply aliveServers_range_sub.
  - destruct (String.eqb (Method req) "POST"); [|done].
    destruct (String.eqb (X_Geerpc_Server req) ""); [done|]. simpl.
    split; [by apply keyed_putServer|]. unfold putServer.
    by destruct (servers r !! X_Geerpc_Server req).
Qed.

(** X1. Whatever requests a registry made by [NewGeeRegistry] has
    served, with whatever methods, headers and range orders, every entry
    of its map is stored under its own address, and its timeout is the
    one it was made with. *)
Theorem registry_entries_keyed_by_address (tmo : Z) (arrivals : list arrival) :
  keyed (servers (serve_all arrivals (NewGeeRegistry tmo)))
  ∧ timeout (serve_all arrivals (NewGeeRegistry tmo)) = tmo.
Proof.
  unfold serve_all.
  assert (H0 : keyed (servers (NewGeeRegistry tmo))
               ∧ timeout (NewGeeRegistry tmo) = tmo)
    by (split; [apply keyed_empty | done]).
  revert H0. generalize (NewGeeRegistry tmo).
  induction arrivals as [|a arrivals IH]; intros r [Hk Ht]; [done|].
  simpl. apply IH.
  destruct (ServeHTTP_keeps (arrival_order a) (arrival_now a) (arrival_req a) r Hk)
    as [? ?].
  split; [done | congruence].
Qed.

Definition POST (addr : string) : Request :=
  {| Method := "POST"; X_Geerpc_Server := addr |}.

(** X2. A server that has sent its heartbeat less than a TTL ago is in
    the answer of a GET, and its entry stays in the map. *)
Theorem registry_heartbeat_keeps_listed
    (order0 order : list string) (t now : Z) (addr : string) (r : GeeRegistry) :
  keyed (servers r) →
  addr ≠ "" →
  range_order order (servers (snd (ServeHTTP order0 t (POST addr) r))) →
  Sub now t < timeout r →
  ∃ alive r',
    ServeHTTP order now GET (snd (ServeHTTP order0 t (POST addr) r)) =
      ({| StatusCode := StatusOK; X_Geerpc_Servers := Some (Join alive ",") |}, r')
    ∧ addr ∈ alive
    ∧ servers r' !! addr = Some {| Addr := addr; start := t |}.
Proof.
  intros Hk Hne Hord Hfresh.
  assert (Hpost : snd (ServeHTTP order0 t (POST addr) r) = putServer t addr r).
  { unfold ServeHTTP. simpl.
    destruct (String.eqb_spec addr ""); [done|done]. }
  rewrite Hpost in *.
  assert (Hentry : servers (putServer t addr r) !! addr
                   = Some {| Addr := addr; start := t |}).
  { unfold putServer. destruct (servers r !! addr) as [server|] eqn:E; simpl.
    - rewrite lookup_insert_eq. by rewrite (Hk _ _ E).
    - by rewrite lookup_insert_eq. }
  assert (Htmo : timeout (putServer t addr r) = timeout r).
  { unfold putServer. by destruct (servers r !! addr). }
  destruct (aliveServers order now (putServer t addr r)) as [alive r'] eqn:Halive.
  exists alive, r'. unfold ServeHTTP. simpl. rewrite Halive.
  destruct (aliveServers_spec _ _ _ _ _ (keyed_putServer t addr r Hk) Hord Halive)
    as (_ & Hm & Ha).
  assert (Hnot : expired now (timeout (putServer t addr r))
                   {| Addr := addr; start := t |} = false).
  { unfold expired. simpl. rewrite Htmo. apply Z.leb_gt. done. }
  split; [done|]. split.
  - rewrite Ha. apply list_elem_of_In, filter_In. split.
    + apply list_elem_of_In. apply Hord. by eexists.
    + unfold kept. by rewrite Hentry, Hnot.
  - by rewrite Hm, Hentry, Hnot.
Qed.

(** The registry of [registry_example], with the heartbeat of "b:2"
    arriving as a POST. *)
Definition registry_after_post : GeeRegistry :=
  snd (ServeHTTP [] 95 (POST "b:2") (putServer 0 "a:1" (NewGeeRegistry 10))).

Lemma registry_heartbeat_keeps_listed_witness :
  ∃ alive r',
    ServeHTTP (map_to_list (servers registry_after_post)).*1 100 GET
        registry_after_post =
      ({| StatusCode := StatusOK; X_Geerpc_Servers := Some (Join alive ",") |}, r')
    ∧ "b:2" ∈ alive
    ∧ servers r' !! "b:2" = Some {| Addr := "b:2"; start := 95 |}.
Proof.
  apply (registry_heartbeat_keeps_listed []
           (map_to_list (servers registry_after_post)).*1 95 100 "b:2"
           (putServer 0 "a:1" (NewGeeRegistry 10))).
  - apply keyed_putServer, keyed_empty.
  - discriminate.
  - apply range_order_keys.
  - vm_compute. reflexivity.
Defined.

(** X3. A GET right after a GET, at the same instant, answers with the
    same servers and changes nothing: what the first one left is what is
    alive. *)
Theorem registry_get_twice
    (order order' : list string) (now : Z) (r : GeeRegistry) :
  keyed (servers r) →
  range_order order (servers r) →
  range_order order' (servers (snd (ServeHTTP order now GET r))) →
  ∃ alive alive',
    fst (ServeHTTP order now GET r) =
      {| StatusCode := StatusOK; X_Geerpc_Servers := Some (Join alive ",") |}
    ∧ ServeHTTP order' now GET (snd (ServeHTTP order now GET r)) =
        ({| StatusCode := StatusOK; X_Geerpc_Servers := Some (Join alive' ",") |},
         snd (ServeHTTP order now GET r))
    ∧ alive' ≡ₚ alive.
Proof.
  intros Hk Hord Hord'.
  destruct (ServeHTTP_keeps order now GET r Hk) as [Hk1 Ht1].
  unfold ServeHTTP in *. simpl in *.
  destruct (aliveServers order now r) as [alive r1] eqn:H1. simpl in *.
  destruct (aliveServers order' now r1) as [alive' r2] eqn:H2.
  exists alive, alive'. split; [done|].
  destruct (aliveServers_spec _ _ _ _ _ Hk Hord H1) as (_ & Hm1 & Ha1).
  destruct (aliveServers_spec _ _ _ _ _ Hk1 Hord' H2) as (Ht2 & Hm2 & Ha2).
  assert (Hlive : ∀ k it, servers r1 !! k = Some it →
            expired now (timeout r1) it = false).
  { intros k it. rewrite Hm1, Ht1.
    destruct (servers r !! k) as [it0|]; [|done].
    destruct (expired now (timeout r) it0) eqn:E; [done|]. by intros [= <-]. }
  assert (r2 = r1) as ->.
  { destruct r1 as [t1 m1], r2 as [t2 m2]. simpl in *. f_equal; [done|].
    apply map_eq. intros k. rewrite Hm2.
    destruct (m1 !! k) as [it|] eqn:E; [|done]. by rewrite (Hlive _ _ E). }
  split; [done|].
  assert (Hmem : ∀ l (f : string → bool), NoDup l → NoDup (List.filter f l)).
  { intros l f Hl. by apply NoDup_ListNoDup, List.NoDup_filter, NoDup_ListNoDup. }
  apply NoDup_Permutation.
  - rewrite Ha2. apply Hmem. by destruct Hord'.
  - rewrite Ha1. apply Hmem. by destruct Hord.
  - intros k. rewrite Ha1, Ha2, !list_elem_of_In, !filter_In, <- !list_elem_of_In.
    destruct Hord as [_ Hall], Hord' as [_ Hall'].
    rewrite Hall, Hall', Hm1. unfold kept. rewrite Hm1, Ht1.
    destruct (servers r !! k) as [it|] eqn:E.
    + destruct (expired now (timeout r) it) eqn:Ex; simpl.
      * split; [by intros [[? ?] _] | by intros [_ ?]].
      * rewrite Ex. split; intros _; (split; [by eexists | done]).
    + split; [by intros [[? ?] _] | by intros [[? ?] _]].
Qed.

Lemma registry_get_twice_witness :
  ∃ alive alive',
    fst (ServeHTTP (map_to_list (servers registry_example)).*1 100 GET
           registry_example) =
      {| StatusCode := StatusOK; X_Geerpc_Servers := Some (Join alive ",") |}
    ∧ ServeHTTP
        (map_to_list
           (servers (snd (ServeHTTP (map_to_list (servers registry_example)).*1
                            100 GET registry_example)))).*1
        100 GET
        (snd (ServeHTTP (map_to_list (servers registry_example)).*1 100 GET
                registry_example)) =
        ({| StatusCode := StatusOK; X_Geerpc_Servers := Some (Join alive' ",") |},
         snd (ServeHTTP (map_to_list (servers registry_example)).*1 100 GET
                registry_example))
    ∧ alive' ≡ₚ alive.
Proof.
  apply (registry_get_twice _ _ 100 registry_example).
  - apply keyed_putServer, keyed_putServer, keyed_empty.
  - apply range_order_keys.
  - apply range_order_keys.
Defined.

End RegistryMore.

(** ** Discovery: selection over several calls, and the locks *)

Section DiscoveryMore.

Import Discovery.

(** [n] calls of [Get] in round-robin mode, one after the other: their
    results, and the discovery they leave. *)
Fixpoint Gets (n : nat) (draw : Z) (m : MultiServersDiscovery)
    : list (result string) * MultiServersDiscovery :=
  match n with
  | O => ([], m)
  | S n =>
      let '(r, m1) := Get draw RoundRobinSelect m in
      let '(rs, m2) := Gets n draw m1 in
      (r :: rs, m2)
  end.

Lemma Get_round_robin draw m :
  servers m ≠ [] → 0 <= index m < 2 ^ 63 - 1 →
  Get draw RoundRobinSelect m =
    (index_slice (servers m) ((index m + 1) mod len (servers m)),
     {| servers := servers m; index := (index m + 1) mod len (servers m) |}).
Proof.
  intros Hne Hidx.
  assert (0 < len (servers m)) as Hlen.
  { unfold len. destruct (servers m); [done | simpl; lia]. }
  unfold Get. simpl.
  destruct (len (servers m) =? 0) eqn:E; [apply Z.eqb_eq in E; lia|].
  simpl. rewrite wrap_int_small by lia. by rewrite Z.rem_mod_nonneg by lia.
Qed.

Lemma Gets_round_robin draw n :
  ∀ m, servers m ≠ [] → 0 <= index m < 2 ^ 63 - 1 →
    len (servers m) < 2 ^ 63 →
    fst (Gets n draw m) =
      (λ k, index_slice (servers m)
              ((index m + 1 + Z.of_nat k) mod len (servers m))) <$> seq 0 n
    ∧ servers (snd (Gets n draw m)) = servers m
    ∧ (n ≠ O →
       index (snd (Gets n draw m)) = (index m + Z.of_nat n) mod len (servers m)).
Proof.
  induction n as [|n IH]; intros m Hne Hidx Hlen; [done|].
  assert (0 < len (servers m)) as Hpos.
  { unfold len. destruct (servers m); [done | simpl; lia]. }
  simpl. rewrite Get_round_robin by done.
  set (m1 := {| servers := servers m; index := (index m + 1) mod len (servers m) |}).
  pose proof (Z.mod_pos_bound (index m + 1) (len (servers m)) Hpos) as Hb.
  destruct (IH m1) as (Hres & Hsrv & Hind); [done | simpl; lia | done |].
  assert (Hidx2 : index (snd (Gets n draw m1)) =
                  (index m + Z.of_nat (S n)) mod len (servers m)).
  { destruct n as [|n'].
    - simpl. f_equal; lia.
    - rewrite Hind by done. simpl. rewrite Zplus_mod_idemp_l. f_equal; lia. }
  destruct (Gets n draw m1) as [rs m2]. simpl in *.
  split; [|split; [done|by intros _]].
  f_equal.
  - f_equal. f_equal; lia.
  - rewrite Hres, <- fmap_S_seq, <- list_fmap_compose.
    apply list_fmap_ext. intros _ k _. simpl. f_equal.
    rewrite <- !Z.add_assoc, Zplus_mod_idemp_l. f_equal; lia.
Qed.

(** X4. Round robin is fair: as many calls of [Get] as there are servers
    return every server, each once, in the order of the list from the
    position after [index] on, and leave [index] where it was. *)
Theorem discovery_round_robin_cycle (draw : Z) (m : MultiServersDiscovery) :
  servers m ≠ [] →
  0 <= index m < 2 ^ 63 - 1 →
  len (servers m) < 2 ^ 63 →
  let k := Z.to_nat ((index m + 1) mod len (servers m)) in
  fst (Gets (length (servers m)) draw m) = Ok <$> rotate k (servers m)
  ∧ rotate k (servers m) ≡ₚ servers m
  ∧ snd (Gets (length (servers m)) draw m) =
      {| servers := servers m; index := index m mod len (servers m) |}.
Proof.
  intros Hne Hidx Hlen k.
  assert (0 < len (servers m)) as Hpos.
  { unfold len. destruct (servers m); [done | simpl; lia]. }
  assert (length (servers m) ≠ O) as Hn by (unfold len in Hpos; lia).
  destruct (Gets_round_robin draw (length (servers m)) m Hne Hidx Hlen)
    as (Hres & Hsrv & Hind).
  split; [|split].
  - rewrite Hres. apply list_eq. intros j.
    rewrite !list_lookup_fmap.
    destruct (decide (j < length (servers m))%nat) as [Hj|Hj].
    + rewrite lookup_seq_lt by done. simpl.
      rewrite lookup_rotate_r by done.
      assert (Hpos' : 0 <= (index m + 1 + Z.of_nat j) mod len (servers m)
                      < Z.of_nat (length (servers m))).
      { apply Z.mod_pos_bound. exact Hpos. }
      destruct (index_slice_in_range _ _ Hpos') as (x & Hx & ->).
      assert (rotate_nat_add k j (length (servers m)) =
              Z.to_nat ((index m + 1 + Z.of_nat j) mod len (servers m))) as ->.
      { unfold rotate_nat_add, k, len.
        rewrite Z2Nat.id by (apply Z.mod_pos_bound; exact Hpos).
        by rewrite Zplus_mod_idemp_l. }
      by rewrite Hx.
    + rewrite lookup_seq_ge by lia. simpl.
      rewrite (proj2 (lookup_ge_None _ _)); [done|]. rewrite length_rotate. lia.
  - unfold rotate. rewrite Permutation_app_comm. by rewrite take_drop.
  - destruct (snd (Gets (length (servers m)) draw m)) as [sv ix]. simpl in *.
    f_equal; [done|]. rewrite Hind by done.
    unfold len. rewrite <- (Z.mul_1_l (Z.of_nat (length (servers m)))) at 1.
    by rewrite Z.mod_add by lia.
Qed.

Lemma discovery_round_robin_cycle_witness :
  let k := Z.to_nat ((index discovery_example + 1)
                       mod len (servers discovery_example)) in
  fst (Gets (length (servers discovery_example)) 7 discovery_example) =
    Ok <$> rotate k (servers discovery_example)
  ∧ rotate k (servers discovery_example) ≡ₚ servers discovery_example
  ∧ snd (Gets (length (servers discovery_example)) 7 discovery_example) =
      {| servers := servers discovery_example;
         index := index discovery_example mod len (servers discovery_example) |}.
Proof.
  apply (discovery_round_robin_cycle 7 discovery_example).
  - discriminate.
  - simpl. lia.
  - vm_compute. reflexivity.
Defined.

(** X5. On a non-empty list, random selection returns one of the
    servers of the list, and leaves the discovery as it is: the
    round-robin position does not move. *)
Theorem discovery_random_selects_member
    (draw : Z) (m : MultiServersDiscovery) :
  servers m ≠ [] →
  ∃ s, s ∈ servers m ∧ Get draw RandomSelect m = (Ok s, m).
Proof.
  intros Hne.
  assert (0 < len (servers m)) as Hpos.
  { unfold len. destruct (servers m); [done | simpl; lia]. }
  unfold Get, Intn. simpl.
  destruct (len (servers m) <=? 0) eqn:E; [apply Z.leb_le in E; lia|].
  destruct (index_slice_in_range (servers m) (draw mod len (servers m)))
    as (s & Hs & ->); [by apply Z.mod_pos_bound|].
  exists s. split; [|done]. by eapply list_elem_of_lookup_2.
Qed.

Lemma discovery_random_selects_member_witness :
  ∃ s, s ∈ servers discovery_example
       ∧ Get 7 RandomSelect discovery_example = (Ok s, discovery_example).
Proof.
  apply (discovery_random_selects_member 7 discovery_example). discriminate.
Defined.

End DiscoveryMore.

Section DiscoveryLockedMore.

Import DiscoveryLocked.

(** X6. [MultiServersDiscovery.Update] never returns.  On a discovery
    whose mutex is free it takes the write lock, stores the new list, and
    then waits for ever in the deferred [RLock], holding the write lock
    itself.  From then on every [Get], [GetAll] and [Update] waits at its
    first lock, and the discovery does not change any more. *)
Theorem discovery_Update_deadlocks
    (servers : list string) (d : Discovery.MultiServersDiscovery) :
  let m := {| mu := unlocked; state := d |} in
  let m' := {| mu := {| writer := true; readers := 0 |};
               state := {| Discovery.servers := servers;
                           Discovery.index := Discovery.index d |} |} in
  Update servers m = Waits m'
  ∧ (∀ draw mode, Get draw mode m' = Waits m')
  ∧ GetAll m' = Waits m'
  ∧ (∀ servers', Update servers' m' = Waits m').
Proof. repeat split. Qed.

(** Without [Update], the locks of [Get] and [GetAll] are given back:
    on a free mutex they return and leave it free. *)
Lemma discovery_Get_releases draw mode d :
  ∃ r d', Get draw mode {| mu := unlocked; state := d |}
          = Returns r {| mu := unlocked; state := d' |}.
Proof.
  unfold Get. simpl. destruct (Discovery.Get draw mode d) as [r d'].
  by exists r, d'.
Qed.

End DiscoveryLockedMore.

(** ** Splitting and joining *)

Section SplitFacts.

Import Strings.

Lemma Split_cons sep s : ∃ w ws, Split sep s = w :: ws.
Proof.
  induction s as [|c rest IH]; simpl; [by eexists _, _|].
  destruct (Ascii.eqb c sep); [by eexists _, _|].
  destruct IH as (w & ws & ->). by eexists _, _.
Qed.

Lemma length_Split sep s : length (Split sep s) = S (Count sep s).
Proof.
  induction s as [|c rest IH]; simpl; [done|].
  destruct (Ascii.eqb c sep); simpl; [by rewrite IH|].
  destruct (Split_cons sep rest) as (w & ws & E). rewrite E in *. by simpl in *.
Qed.

Lemma Split_no_sep sep s : Count sep s = 0%nat → Split sep s = [s].
Proof.
  induction s as [|c rest IH]; simpl; [done|].
  destruct (Ascii.eqb c sep); [done|]. simpl. intros H. by rewrite IH.
Qed.

Lemma Split_app sep p a :
  Count sep p = 0%nat →
  Split sep (p ++ String sep a) = p :: Split sep a.
Proof.
  induction p as [|c p IH]; simpl.
  - by rewrite Ascii.eqb_refl.
  - destruct (Ascii.eqb c sep); [done|]. simpl. intros H. by rewrite IH.
Qed.

Lemma concat_cons_char sep c w ws :
  String.concat sep (String c w :: ws) = String c (String.concat sep (w :: ws)).
Proof. by destruct ws. Qed.

(** Joining the pieces with the separator gives the string back. *)
Lemma concat_Split sep s :
  String.concat (String sep EmptyString) (Split sep s) = s.
Proof.
  induction s as [|c rest IH]; simpl; [done|].
  destruct (Ascii.eqb_spec c sep) as [->|Hne].
  - destruct (Split_cons sep rest) as (w & ws & E). rewrite E in *.
    change (String sep (String.concat (String sep EmptyString) (w :: ws))
            = String sep rest).
    by rewrite IH.
  - destruct (Split_cons sep rest) as (w & ws & E). rewrite E in *.
    by rewrite concat_cons_char, IH.
Qed.

(** No piece holds the separator. *)
Lemma Split_pieces sep s w : w ∈ Split sep s → Count sep w = 0%nat.
Proof.
  revert w. induction s as [|c rest IH]; intros w; simpl.
  - by intros ->%list_elem_of_singleton.
  - destruct (Ascii.eqb c sep) eqn:E.
    + intros [->|H]%elem_of_cons; [done | by apply IH].
    + destruct (Split_cons sep rest) as (w0 & ws & Es). rewrite Es in *.
      intros [->|H]%elem_of_cons.
      * simpl. rewrite E. apply IH, list_elem_of_here.
      * by apply IH, list_elem_of_further.
Qed.

(** Splitting what was joined gives the pieces back, when there is at
    least one piece and none holds the separator. *)
Lemma Split_concat sep l :
  l ≠ [] → (∀ w, w ∈ l → Count sep w = 0%nat) →
  Split sep (String.concat (String sep EmptyString) l) = l.
Proof.
  induction l as [|a l IH]; [done|]. intros _ Hall.
  destruct l as [|b l].
  - simpl. apply Split_no_sep, Hall, list_elem_of_here.
  - change (String.concat (String sep EmptyString) (a :: b :: l))
      with (a ++ String sep (String.concat (String sep EmptyString) (b :: l))).
    rewrite Split_app by apply Hall, list_elem_of_here.
    f_equal. apply IH; [done|]. intros w Hw. by apply Hall, list_elem_of_further.
Qed.

End SplitFacts.

(** ** [XDial] *)

Section XDialMore.

Import Strings XDial.

(** X7. [XDial] accepts exactly the addresses with one "@".  Such an
    address is [protocol ++ "@" ++ addr] with no "@" in either part, and
    [XDial] goes on to [DialHTTP("tcp", addr)] when the protocol is
    "http" and to [Dial(protocol, addr)] otherwise.  Any other address,
    with no "@" or with several, is answered with the format error, and
    nothing is dialed. *)
Theorem XDial_accepts_one_at (rpcAddr : string) :
  if Nat.eqb (Count "@"%char rpcAddr) 1 then
    ∃ protocol addr,
      rpcAddr = protocol ++ "@" ++ addr
      ∧ Count "@"%char protocol = 0%nat
      ∧ Count "@"%char addr = 0%nat
      ∧ XDial rpcAddr =
          inr (if String.eqb protocol "http" then DialHTTP "tcp" addr
               else Dial protocol addr)
  else XDial rpcAddr = inl (formatError rpcAddr).
Proof.
  pose proof (length_Split "@"%char rpcAddr) as Hlen.
  pose proof (concat_Split "@"%char rpcAddr) as Hcat.
  pose proof (Split_pieces "@"%char rpcAddr) as Hpieces.
  unfold XDial.
  destruct (Nat.eqb_spec (Count "@"%char rpcAddr) 1) as [E|E].
  - rewrite E in Hlen.
    destruct (Split "@"%char rpcAddr) as [|p [|a [|? ?]]]; try done.
    exists p, a. simpl in Hcat. split; [done|].
    split; [apply Hpieces, list_elem_of_here|].
    split; [apply Hpieces, list_elem_of_further, list_elem_of_here|].
    by destruct (String.eqb p "http").
  - destruct (Split "@"%char rpcAddr) as [|p [|a [|? ?]]]; try done.
    simpl in Hlen. lia.
Qed.

Example XDial_examples :
  XDial "tcp@127.0.0.1:9999" = inr (Dial "tcp" "127.0.0.1:9999")
  ∧ XDial "http@10.0.0.1:80" = inr (DialHTTP "tcp" "10.0.0.1:80")
  ∧ XDial "unix@/tmp/sock" = inr (Dial "unix" "/tmp/sock")
  ∧ XDial "127.0.0.1:9999" = inl (formatError "127.0.0.1:9999")
  ∧ XDial "tcp@a@b" = inl (formatError "tcp@a@b")
  ∧ XDial "@" = inr (Dial "" "").
Proof. repeat split; reflexivity. Qed.

End XDialMore.

(** ** [GeeRegistryDiscovery] *)

Section RegistryDiscoveryMore.

Import Strings RegistryDiscovery.

(** White space of one byte, and a [TrimSpace] for strings that hold no
    other white space: what the examples use. *)
Definition is_space (c : ascii) : bool :=
  let n := nat_of_ascii c in
  (Nat.eqb n 32 || (Nat.leb 9 n && Nat.leb n 13))%bool.

Fixpoint trim_left (s : string) : string :=
  match s with
  | EmptyString => EmptyString
  | String c rest => if is_space c then trim_left rest else s
  end.

Fixpoint trim_right (s : string) : string :=
  match s with
  | EmptyString => EmptyString
  | String c rest =>
      match trim_right rest with
      | EmptyString => if is_space c then EmptyString else String c EmptyString
      | r => String c r
      end
  end.

Definition TrimSpace_bytes (s : string) : string := trim_right (trim_left s).

(** The loop of [Refresh] gives back a list of addresses that are not
    empty and that [TrimSpace] leaves alone. *)
Lemma trimmed_clean (TrimSpace : string → string) (l : list string) :
  (∀ a, a ∈ l → a ≠ "" ∧ TrimSpace a = a) → trimmed TrimSpace l = l.
Proof.
  induction l as [|a l IH]; intros Hall; [done|]. simpl.
  destruct (Hall a) as [Hne Hfix]; [apply list_elem_of_here|].
  rewrite Hfix. destruct (String.eqb_spec a ""); [done|].
  f_equal. apply IH. intros b Hb. by apply Hall, list_elem_of_further.
Qed.

(** X8. What the registry answers is what the discovery gets.  When the
    addresses alive in the registry are not empty, hold no comma and no
    white space at their ends, a [Refresh] that is due and reads the
    [X-Geerpc-Servers] header of the registry's answer to a GET replaces
    the list of the discovery by exactly those addresses, in the
    registry's order, and records the instant. *)
Theorem registry_answer_refreshes_discovery
    (TrimSpace : string → string) (order : list string) (t now : Z)
    (r : Registry.GeeRegistry) (header : string) (d : GeeRegistryDiscovery) :
  TrimSpace "" = "" →
  (∀ a, a ∈ fst (Registry.aliveServers order t r) →
        a ≠ "" ∧ Count ","%char a = 0%nat ∧ TrimSpace a = a) →
  Registry.X_Geerpc_Servers (fst (Registry.ServeHTTP order t GET r)) = Some header →
  lastUpdate d + timeout d <= now →
  Refresh TrimSpace now (inr header) d =
    (None, set_servers now (fst (Registry.aliveServers order t r)) d).
Proof.
  intros Hempty Hall Hheader Hdue.
  unfold Registry.ServeHTTP in Hheader. simpl in Hheader.
  destruct (Registry.aliveServers order t r) as [alive r'] eqn:Halive.
  simpl in *. injection Hheader as <-.
  unfold Refresh. destruct (now <? lastUpdate d + timeout d) eqn:E;
    [apply Z.ltb_lt in E; lia|].
  f_equal. f_equal. unfold Registry.Join.
  destruct alive as [|a alive].
  - simpl. rewrite Hempty. done.
  - rewrite Split_concat; [|done|intros w Hw; by apply Hall].
    apply trimmed_clean. intros w Hw. destruct (Hall w Hw) as (? & _ & ?). done.
Qed.

Definition discovery_new : GeeRegistryDiscovery :=
  NewGeeRegistryDiscovery 4 "http://localhost:9999/_geerpc_/registry" 10000000000.

Lemma registry_answer_refreshes_discovery_witness :
  Refresh TrimSpace_bytes 100 (inr "b:2") discovery_new =
    (None,
     set_servers 100
       (fst (Registry.aliveServers
               (map_to_list (Registry.servers registry_example)).*1 100
               registry_example))
       discovery_new).
Proof.
  apply (registry_answer_refreshes_discovery TrimSpace_bytes
           (map_to_list (Registry.servers registry_example)).*1 100 100
           registry_example "b:2" discovery_new).
  - reflexivity.
  - intros a Ha. vm_compute in Ha.
    apply list_elem_of_singleton in Ha. subst a.
    split; [discriminate|]. split; reflexivity.
  - reflexivity.
  - vm_compute. discriminate.
Defined.

(** X9. After [Update], the queries made before the refresh interval
    has passed answer from the list given to [Update], whatever the
    registry would say: it is not asked. *)
Theorem discovery_Update_then_GetAll
    (TrimSpace : string → string) (t now : Z) (httpGet : string + string)
    (servers : list string) (d : GeeRegistryDiscovery) :
  now < t + timeout d →
  GetAll TrimSpace now httpGet (snd (Update t servers d)) =
    (Ok servers, snd (Update t servers d))
  ∧ Refresh TrimSpace now httpGet (snd (Update t servers d)) =
      (None, snd (Update t servers d)).
Proof.
  intros Hnow. unfold GetAll, Refresh, Update. simpl.
  apply Z.ltb_lt in Hnow. by rewrite Hnow.
Qed.

Lemma discovery_Update_then_GetAll_witness :
  GetAll TrimSpace_bytes 105 (inl "connection refused")
      (snd (Update 100 ["tcp@a:1"] discovery_new)) =
    (Ok ["tcp@a:1"], snd (Update 100 ["tcp@a:1"] discovery_new))
  ∧ Refresh TrimSpace_bytes 105 (inl "connection refused")
      (snd (Update 100 ["tcp@a:1"] discovery_new)) =
      (None, snd (Update 100 ["tcp@a:1"] discovery_new)).
Proof.
  apply (discovery_Update_then_GetAll TrimSpace_bytes 100 105
           (inl "connection refused") ["tcp@a:1"] discovery_new).
  vm_compute. reflexivity.
Defined.

(** X10. A registry that lists no server does not make [Get] fail with
    an error: after a due [Refresh] that reads an empty header the list
    is empty, and [Get] panics, in [Intn] for the random mode and on the
    division by zero for round robin. *)
Theorem discovery_Get_empty_registry_panics
    (TrimSpace : string → string) (now draw : Z) (d : GeeRegistryDiscovery) :
  TrimSpace "" = "" →
  lastUpdate d + timeout d <= now →
  fst (Get TrimSpace now (inr "") draw Discovery.RandomSelect d)
    = Panic "invalid argument to Intn"
  ∧ fst (Get TrimSpace now (inr "") draw Discovery.RoundRobinSelect d)
    = Panic "integer divide by zero"
  ∧ fst (GetAll TrimSpace now (inr "") d) = Ok [].
Proof.
  intros Hempty Hdue. unfold Get, GetAll, Refresh.
  destruct (now <? lastUpdate d + timeout d) eqn:E;
    [apply Z.ltb_lt in E; lia|].
  simpl. rewrite Hempty. simpl. done.
Qed.

Lemma discovery_Get_empty_registry_panics_witness :
  fst (Get TrimSpace_bytes 100 (inr "") 7 Discovery.RandomSelect discovery_new)
    = Panic "invalid argument to Intn"
  ∧ fst (Get TrimSpace_bytes 100 (inr "") 7 Discovery.RoundRobinSelect discovery_new)
    = Panic "integer divide by zero"
  ∧ fst (GetAll TrimSpace_bytes 100 (inr "") discovery_new) = Ok [].
Proof.
  apply (discovery_Get_empty_registry_panics TrimSpace_bytes 100 7 discovery_new).
  - reflexivity.
  - vm_compute. discriminate.
Defined.

End RegistryDiscoveryMore.

(** ** The server: registration, the serve loop, the handler *)

Section ServerMore.

Import Codec Server ServerConn Strings.










(** A request as it comes on the connection: its header, then its body. *)
Definition frame (hb : Header * string) : list item :=
  [ItemHeader hb.1; ItemBody hb.2].

(** The request [readRequest] builds from a header whose target
    resolves, and the body. *)
Definition resolved (s : Server) (hb : Header * string) : option Request :=
  match findService s (ServiceMethod hb.1) with
  | Ok (sv, mt) =>
      Some {| H := hb.1; Arg := hb.2; svc := Some sv; mtype := Some mt |}
  | _ => None
  end.

Lemma readRequest_frame s hb req rest :
  resolved s hb = Some req →
  readRequest s (frame hb ++ rest) = ((Some req, None), rest).
Proof.
  unfold resolved, readRequest. destruct hb as [h b]. simpl.
  destruct (findService s (ServiceMethod h)) as [[sv mt]|e|e]; [|done|done].
  by intros [= <-].
Qed.

Lemma serveCodec_loop_frames s reqs :
  ∀ fuel acc rs,
    mapM (resolved s) reqs = Some rs →
    (length reqs < fuel)%nat →
    serveCodec_loop fuel s (concat (frame <$> reqs)) acc =
      Some {| handled := acc ++ rs; unread := [] |}.
Proof.
  induction reqs as [|hb reqs IH]; intros fuel acc rs Hrs Hfuel.
  - simpl in Hrs. injection Hrs as <-.
    destruct fuel as [|fuel]; [lia|]. simpl. by rewrite app_nil_r.
  - destruct fuel as [|fuel]; [simpl in Hfuel; lia|].
    rewrite mapM_Some in Hrs.
    apply Forall2_cons_inv_l in Hrs as (req & rs' & Hreq & Hrs' & ->).
    rewrite fmap_cons. simpl concat. simpl serveCodec_loop.
    change (ItemHeader hb.1 :: ItemBody hb.2 :: concat (frame <$> reqs))
      with (frame hb ++ concat (frame <$> reqs))%list.
    rewrite (readRequest_frame s hb req) by done.
    rewrite (IH fuel (acc ++ [req])%list rs').
    + by rewrite <- app_assoc.
    + by apply mapM_Some.
    + simpl in Hfuel. lia.
Qed.

(** X12. A connection that carries well-formed requests whose targets
    all resolve is served to its end: [serveCodec] starts one handler
    for each request, in the order of arrival, with the header and the
    body that were sent, and stops at the end of the stream with nothing
    left unread. *)
Theorem serveCodec_serves_every_request
    (s : Server) (reqs : list (Header * string)) (rs : list Request) :
  mapM (resolved s) reqs = Some rs →
  serveCodec s (concat (frame <$> reqs)) =
    Some {| handled := rs; unread := [] |}
  ∧ length rs = length reqs
  ∧ (∀ i req, rs !! i = Some req →
       ∃ hb, reqs !! i = Some hb ∧ H req = hb.1 ∧ Arg req = hb.2).
Proof.
  intros Hrs. split; [|split].
  - unfold serveCodec. apply (serveCodec_loop_frames s reqs _ [] rs Hrs).
    clear. induction reqs as [|hb reqs IH]; [simpl; lia|].
    rewrite fmap_cons.
    change (concat (frame hb :: (frame <$> reqs)))
      with (frame hb ++ concat (frame <$> reqs))%list.
    rewrite length_app. simpl. lia.
  - apply mapM_Some in Hrs. symmetry. by eapply Forall2_length.
  - intros i req Hi. apply mapM_Some in Hrs.
    destruct (Forall2_lookup_r _ _ _ _ _ Hrs Hi) as (hb & Hhb & Hres).
    exists hb. split; [done|]. unfold resolved in Hres.
    destruct (findService s (ServiceMethod hb.1)) as [[sv mt]|e|e]; [|done|done].
    by injection Hres as <-.
Qed.

Lemma serveCodec_serves_every_request_witness :
  serveCodec server_example
      (concat (frame <$> [(request "Foo.Sum" 2, "1+2"); (request "Foo.Sum" 3, "3+4")]))
    = Some {| handled :=
                [ {| H := request "Foo.Sum" 2; Arg := "1+2"; svc := Some Foo;
                     mtype := Some {| numCalls := 0 |} |};
                  {| H := request "Foo.Sum" 3; Arg := "3+4"; svc := Some Foo;
                     mtype := Some {| numCalls := 0 |} |} ];
              unread := [] |}
  ∧ length [ {| H := request "Foo.Sum" 2; Arg := "1+2"; svc := Some Foo;
                mtype := Some {| numCalls := 0 |} |};
             {| H := request "Foo.Sum" 3; Arg := "3+4"; svc := Some Foo;
                mtype := Some {| numCalls := 0 |} |} ]
    = length [(request "Foo.Sum" 2, "1+2"); (request "Foo.Sum" 3, "3+4")]
  ∧ (∀ i req,
       [ {| H := request "Foo.Sum" 2; Arg := "1+2"; svc := Some Foo;
            mtype := Some {| numCalls := 0 |} |};
         {| H := request "Foo.Sum" 3; Arg := "3+4"; svc := Some Foo;
            mtype := Some {| numCalls := 0 |} |} ] !! i = Some req →
       ∃ hb, [(request "Foo.Sum" 2, "1+2"); (request "Foo.Sum" 3, "3+4")] !! i
             = Some hb ∧ H req = hb.1 ∧ Arg req = hb.2).
Proof.
  apply (serveCodec_serves_every_request server_example
           [(request "Foo.Sum" 2, "1+2"); (request "Foo.Sum" 3, "3+4")]).
  reflexivity.
Defined.





End ServerMore.

Section HandlerMore.

Import Codec Server.

Variable DurationString : Z → string.
Variable callErr : option string.
Variable callReply : string.
Variable timeout : Z.
Variable h : Header.

(** The response of the started goroutine: the header with the error of
    the method and no body, or the header as it came and the reply. *)
Definition own_response : Header * body :=
  match callErr with
  | Some e => (with_Error e h, BodyNil)
  | None => (h, BodyReply callReply)
  end.

(** The header of the timeout response. *)
Definition timed_out : Header :=
  with_Error (handleTimeoutError DurationString timeout) h.

Definition either_reply (r : string) : Prop := r = "" ∨ r = callReply.

(** What the handler looks like at each pair of places. *)
Definition handler_shape (hd : handler) : Prop :=
  match main hd, worker hd with
  | (MWaitCalled0 | MSelect | MTimedOut), WCalling =>
      reqH hd = h ∧ reply hd = "" ∧ written hd = []
  | (MWaitCalled0 | MSelect | MTimedOut), WCalled
  | (MWaitSent0 | MWaitSent), WRespond =>
      reqH hd = h ∧ reply hd = callReply ∧ written hd = []
  | (MWaitSent0 | MWaitSent), WSent
  | MLastSend, WReturned =>
      reqH hd = own_response.1 ∧ reply hd = callReply
      ∧ written hd = [own_response]
  | MReturned, WReturned =>
      reqH hd = own_response.1 ∧ reply hd = callReply
      ∧ written hd =
          if timeout =? 0 then [own_response]
          else [own_response; (own_response.1, BodyReply callReply)]
  | MLastSend, (WCalling | WCalled) =>
      reqH hd = timed_out ∧ either_reply (reply hd)
      ∧ ∃ r1, either_reply r1 ∧ written hd = [(timed_out, BodyReplyValue r1)]
  | MReturned, (WCalling | WCalled) =>
      reqH hd = timed_out ∧ either_reply (reply hd)
      ∧ ∃ r1 r2, either_reply r1 ∧ either_reply r2
          ∧ written hd = [(timed_out, BodyReplyValue r1); (timed_out, BodyReply r2)]
  | _, _ => False
  end.

Lemma handler_shape_step mv hd :
  handler_inv (timeout =? 0) hd →
  handler_shape hd →
  handler_shape (handler_step DurationString callErr callReply timeout mv hd).
Proof.
  unfold handler_inv, handler_shape, own_response, either_reply.
  destruct hd as [m w hh r wr]. simpl.
  destruct mv, m, w; simpl; try done;
    destruct (timeout =? 0) eqn:Et; simpl; try done;
    destruct callErr; simpl;
    intros Hinv; try done;
    intros Hs; decompose [and or ex] Hs; subst; simpl;
    repeat split; eauto 10.
Qed.

Lemma handleRequest_shape mvs :
  handler_shape (handleRequest DurationString callErr callReply timeout h mvs).
Proof.
  unfold handleRequest.
  assert (Hinit : handler_inv (timeout =? 0) (handler_init timeout h)
                  ∧ handler_shape (handler_init timeout h)).
  { unfold handler_inv, handler_shape, handler_init. simpl.
    by destruct (timeout =? 0). }
  revert Hinit. generalize (handler_init timeout h).
  induction mvs as [|mv mvs IH]; intros hd [Hinv Hs]; [done|].
  simpl. apply IH. split.
  - by apply handler_step_inv.
  - by apply handler_shape_step.
Qed.

End HandlerMore.

Section HandlerClaims.

Import Codec Server.

(** X14. With no handle timeout, under every schedule, a handler that
    has returned has written one response, the method's own: the header
    with the method's error and a nil body when the method failed, the
    header as it came and the reply when it did not. *)
Theorem handleRequest_no_timeout_writes_result
    (DurationString : Z → string) (callErr : option string) (callReply : string)
    (h : Header) (mvs : list move) :
  main (handleRequest DurationString callErr callReply 0 h mvs) = MReturned →
  written (handleRequest DurationString callErr callReply 0 h mvs) =
    [match callErr with
     | Some e => (with_Error e h, BodyNil)
     | None => (h, BodyReply callReply)
     end].
Proof.
  intros Hret.
  pose proof (handleRequest_shape DurationString callErr callReply 0 h mvs) as Hs.
  pose proof (handleRequest_inv DurationString callErr callReply 0 h mvs) as Hi.
  unfold handler_shape, handler_inv in *. rewrite Hret in *.
  destruct (worker _); simpl in *; try done.
  by destruct Hs as (_ & _ & ->).
Qed.

Lemma handleRequest_no_timeout_writes_result_witness :
  written (handleRequest seconds (Some "division by zero") "" 0
             (request "Foo.Div" 7) [Worker; Worker; Worker; Worker]) =
    [(with_Error "division by zero" (request "Foo.Div" 7), BodyNil)].
Proof.
  apply (handleRequest_no_timeout_writes_result seconds
           (Some "division by zero") "" (request "Foo.Div" 7)
           [Worker; Worker; Worker; Worker]).
  reflexivity.
Defined.

(** X15. With a handle timeout, under every schedule, a handler that has
    returned has written one of two things.  Either the method came
    first: its goroutine has returned, and the method's own response is
    followed by a second one with the same header and the reply.  Or the
    timer came first: both responses carry the timeout error, and the
    goroutine of the method has neither written nor returned. *)
Theorem handleRequest_timeout_race
    (DurationString : Z → string) (callErr : option string) (callReply : string)
    (timeout : Z) (h : Header) (mvs : list move) :
  timeout ≠ 0 →
  main (handleRequest DurationString callErr callReply timeout h mvs) = MReturned →
  let hd := handleRequest DurationString callErr callReply timeout h mvs in
  let own := own_response callErr callReply h in
  let late := timed_out DurationString timeout h in
  (worker hd = WReturned
   ∧ written hd = [own; (own.1, BodyReply callReply)])
  ∨ ((worker hd = WCalling ∨ worker hd = WCalled)
     ∧ ∃ r1 r2, written hd = [(late, BodyReplyValue r1); (late, BodyReply r2)]).
Proof.
  intros Hne Hret hd own late.
  pose proof (handleRequest_shape DurationString callErr callReply timeout h mvs)
    as Hs.
  pose proof (handleRequest_inv DurationString callErr callReply timeout h mvs)
    as Hi.
  fold hd in Hs, Hi, Hret.
  unfold handler_shape, handler_inv in *. rewrite Hret in *.
  apply Z.eqb_neq in Hne. rewrite Hne in *.
  destruct (worker hd); simpl in *; try done.
  - right. split; [by left|]. destruct Hs as (_ & _ & r1 & r2 & _ & _ & ->).
    by exists r1, r2.
  - right. split; [by right|]. destruct Hs as (_ & _ & r1 & r2 & _ & _ & ->).
    by exists r1, r2.
  - left. split; [done|]. by destruct Hs as (_ & _ & ->).
Qed.

Lemma handleRequest_timeout_race_witness :
  let hd := handleRequest seconds None "3" second (request "Foo.Sum" 7)
              [Timer; Main; Worker; Main] in
  let own := own_response None "3" (request "Foo.Sum" 7) in
  let late := timed_out seconds second (request "Foo.Sum" 7) in
  (worker hd = WReturned
   ∧ written hd = [own; (own.1, BodyReply "3")])
  ∨ ((worker hd = WCalling ∨ worker hd = WCalled)
     ∧ ∃ r1 r2, written hd = [(late, BodyReplyValue r1); (late, BodyReply r2)]).
Proof.
  apply (handleRequest_timeout_race seconds None "3" second
           (request "Foo.Sum" 7) [Timer; Main; Worker; Main]).
  - discriminate.
  - reflexivity.
Defined.

End HandlerClaims.

(** ** Dialing over HTTP, and the cache of [XClient] *)

Section DialMore.

Import Dial.

(** [DialHTTP]: [dialTimeout] with [NewHTTPClient] as the handshake,
    which delivers its result [t] after the dial.  [resp] and [rerr] are
    what [http.ReadResponse] returns, [handshake] what [NewClient] would
    return. *)
Definition DialHTTP (DurationString : Z → string) (dialed : option string)
    (t : Z) (resp : option HTTPResponse) (rerr : option string)
    (handshake : clientResult) (timerFirst : bool) (ConnectTimeout : Z)
    : result dialOutcome :=
  match dialed with
  | Some _ => Ok (dialTimeout DurationString dialed Never timerFirst ConnectTimeout)
  | None =>
      match NewHTTPClient resp rerr handshake with
      | Ok res =>
          Ok (dialTimeout DurationString None (After t res) timerFirst
                ConnectTimeout)
      | Err e => Err e
      | Panic msg => Panic msg
      end
  end.

(** X16. [DialHTTP] to a server that answers in time with another status
    than "200 connected to Gee RPC" returns neither a client nor an
    error, and the connection it has opened is left open. *)
Theorem DialHTTP_other_status_returns_nothing
    (DurationString : Z → string) (t : Z) (status : string)
    (handshake : clientResult) (timerFirst : bool) (ConnectTimeout : Z) :
  status ≠ connected →
  ConnectTimeout = 0 ∨ t < ConnectTimeout →
  DialHTTP DurationString None t (Some {| Status := status |}) None handshake
      timerFirst ConnectTimeout =
    Ok (Returns {| client := None; err := None |} false).
Proof.
  intros Hstatus Htime. unfold DialHTTP. rewrite NewHTTPClient_read.
  destruct (String.eqb_spec status connected); [done|].
  unfold dialTimeout. destruct Htime as [->|Hlt]; [done|].
  destruct (ConnectTimeout =? 0); [done|].
  apply Z.ltb_lt in Hlt. by rewrite Hlt.
Qed.

Lemma DialHTTP_other_status_returns_nothing_witness :
  DialHTTP seconds None 5 (Some {| Status := "404 Not Found" |}) None
      {| client := None; err := None |} false 1000000000 =
    Ok (Returns {| client := None; err := None |} false).
Proof.
  apply (DialHTTP_other_status_returns_nothing seconds 5 "404 Not Found"
           {| client := None; err := None |} false 1000000000).
  - discriminate.
  - right. lia.
Defined.

End DialMore.

Section XClientMore.

Import XClient.

(** X17. A dial that comes back with a nil client and a nil error is
    cached as it is: [dial] returns the nil client and stores it under
    the address, and every later [dial] for that address panics on it. *)
Theorem xclient_dial_caches_nil_client (rpcAddr : string) (xc : XClient) :
  clients xc !! rpcAddr = None →
  let xc' := {| store := store xc;
                clients := <[rpcAddr := None]> (clients xc) |} in
  dial (Ok None) rpcAddr xc = (Ok None, xc')
  ∧ ∀ xdial, dial xdial rpcAddr xc' = (Panic "nil pointer dereference", xc').
Proof.
  intros Habsent xc'. split.
  - unfold dial. by rewrite Habsent.
  - intros xdial. unfold dial, xc'. simpl. by rewrite lookup_insert_eq.
Qed.

Lemma xclient_dial_caches_nil_client_witness :
  let xc' := {| store := store NewXClient;
                clients := <["http@a:80" := None]> (clients NewXClient) |} in
  dial (Ok None) "http@a:80" NewXClient = (Ok None, xc')
  ∧ ∀ xdial, dial xdial "http@a:80" xc' = (Panic "nil pointer dereference", xc').
Proof.
  apply (xclient_dial_caches_nil_client "http@a:80" NewXClient). reflexivity.
Defined.

(** X18. [dial] works on its own address only.  The cache entries of the
    other addresses stay as they are, no client is taken out of the
    store, and a client that is returned is the one the cache then holds
    for the address. *)
Theorem xclient_dial_frame
    (xdial : result (option Client)) (rpcAddr : string) (xc : XClient) :
  (∀ other, other ≠ rpcAddr →
     clients (snd (dial xdial rpcAddr xc)) !! other = clients xc !! other)
  ∧ (length (store xc) ≤ length (store (snd (dial xdial rpcAddr xc))))%nat
  ∧ (∀ p, fst (dial xdial rpcAddr xc) = Ok (Some p) →
       clients (snd (dial xdial rpcAddr xc)) !! rpcAddr = Some (Some p)
       ∧ is_Some (store (snd (dial xdial rpcAddr xc)) !! p)).
Proof.
  unfold dial.
  destruct (clients xc !! rpcAddr) as [[p|]|] eqn:Hc; simpl;
    [destruct (store xc !! p) as [cl|] eqn:Hp; simpl;
       [destruct (IsAvailable cl); simpl|]| |];
    try destruct xdial as [[cl'|]|e|msg]; simpl;
    (split; [intros other Hne; by rewrite ?lookup_insert_ne|]);
    (split; [rewrite ?length_app, ?length_insert; simpl; lia|]);
    intros q Hq; try done; injection Hq as <-;
    rewrite ?lookup_insert_eq; (split; [done|]);
    first [ by eexists
          | apply lookup_lt_is_Some;
            rewrite ?length_app, ?length_insert; simpl; lia ].
Qed.

End XClientMore.

(** ** [Broadcast] *)

Section BroadcastMore.

Import Broadcast.

(** The errors and the successful replies among the results, in order. *)
Definition errors (results : list (option string * string)) : list string :=
  omap fst results.

Definition successes (results : list (option string * string)) : list string :=
  omap (λ r, match r.1 with None => Some r.2 | Some _ => None end) results.

Lemma arrive_all_spec results :
  ∀ st v, reply st = Some v →
    ∃ st', arrive_all results st = Ok st'
      ∧ e st' = match e st with
                | Some x => Some x
                | None => head (errors results)
                end
      ∧ reply st' = (if replyDone st then Some v
                     else Some (default v (head (successes results))))
      ∧ cancelled st' =
          (cancelled st
           || match e st, errors results with
              | None, _ :: _ => true
              | _, _ => false
              end).
Proof.
  induction results as [|[err cloned] results IH]; intros st v Hv.
  - exists st. simpl. repeat split.
    + by destruct (e st).
    + by destruct (replyDone st).
    + destruct (e st); by rewrite orb_false_r.
  - simpl. unfold arrive.
    destruct err as [x|]; simpl.
    + destruct (e st) as [y|] eqn:Ee.
      * destruct (IH st v Hv) as (st' & -> & He & Hr & Hc).
        exists st'. rewrite Ee in *.
        repeat split; try done; by rewrite Hc.
      * set (st1 := {| e := Some x; reply := reply st; replyDone := replyDone st;
                       cancelled := true |}).
        destruct (IH st1 v Hv) as (st' & -> & He & Hr & Hc).
        exists st'. simpl in *.
        repeat split; try done;
          rewrite Hc; by rewrite ?orb_false_r, ?orb_true_r.
    + replace (match e st with Some _ | _ => st end) with st by (by destruct (e st)).
      destruct (replyDone st) eqn:Ed.
      * destruct (IH st v Hv) as (st' & -> & He & Hr & Hc).
        exists st'. rewrite Ed in *. by repeat split.
      * rewrite Hv.
        set (st1 := {| e := e st; reply := Some cloned; replyDone := true;
                       cancelled := cancelled st |}).
        destruct (IH st1 cloned eq_refl) as (st' & -> & He & Hr & Hc).
        exists st'. simpl in *. by repeat split.
Qed.

(** X19. [Broadcast] with a reply to fill: it returns the error of the
    first call that failed, in the order in which the calls ended, and
    nil when none failed; [reply] ends with the value of the first call
    that succeeded, and is left as it was when none did.  The other
    results are dropped.  When the servers cannot be listed it returns
    that error and calls nobody. *)
Theorem Broadcast_first_error_first_reply
    (servers : list string) (results : list (option string * string))
    (v : string) (x : string) :
  Broadcast (Ok servers) results (Some v) =
    Ok (head (errors results), Some (default v (head (successes results))))
  ∧ Broadcast (Err x) results (Some v) = Ok (Some x, Some v).
Proof.
  split; [|done]. unfold Broadcast.
  destruct (arrive_all_spec results
              {| e := None; reply := Some v; replyDone := false;
                 cancelled := false |} v eq_refl) as (st' & -> & He & Hr & _).
  simpl in *. by rewrite He, Hr.
Qed.

Example Broadcast_scenario :
  Broadcast (Ok ["A"; "B"]) [(None, "7"); (Some "B failed", "")] (Some "0")
    = Ok (Some "B failed", Some "7")
  ∧ Broadcast (Ok ["A"; "B"]) [(Some "B failed", ""); (None, "7")] (Some "0")
    = Ok (Some "B failed", Some "7")
  ∧ Broadcast (Ok []) [] (Some "0") = Ok (None, Some "0").
Proof. repeat split; reflexivity. Qed.

(** X20. [Broadcast] with a nil reply panics as soon as one call
    succeeds, and returns the first error when every call fails. *)
Theorem Broadcast_nil_reply
    (servers : list string) (results : list (option string * string)) :
  Broadcast (Ok servers) results None =
    match successes results with
    | [] => Ok (head (errors results), None)
    | _ :: _ => Panic "reflect: call of reflect.Value.Elem on zero Value"
    end.
Proof.
  unfold Broadcast.
  assert (H : ∀ st, reply st = None → replyDone st = false →
            arrive_all results st =
              match successes results with
              | [] => Ok {| e := match e st with
                                 | Some y => Some y
                                 | None => head (errors results)
                                 end;
                            reply := None; replyDone := false;
                            cancelled := cancelled st
                              || match e st, errors results with
                                 | None, _ :: _ => true
                                 | _, _ => false
                                 end |}
              | _ :: _ => Panic "reflect: call of reflect.Value.Elem on zero Value"
              end).
  { induction results as [|[err cloned] results IH]; intros st Hr Hd.
    - simpl. destruct st as [e0 r0 d0 c0]. simpl in *. subst.
      destruct e0; by rewrite orb_false_r.
    - simpl. unfold arrive. destruct err as [y|]; simpl.
      + destruct (e st) as [z|] eqn:Ee.
        * rewrite IH by done. rewrite Ee.
          destruct (successes results); [|done].
          by rewrite !orb_false_r.
        * rewrite IH by done. simpl.
          destruct (successes results); [|done]. by rewrite orb_true_r.
      + replace (match e st with Some _ | _ => st end) with st
          by (by destruct (e st)).
        by rewrite Hd, Hr. }
  rewrite H by done. by destruct (successes results).
Qed.

End BroadcastMore.

(** ** The client: what the calls hold *)

Section ClientMore.

Import Codec Client.






















(** X24 ([Go], [registerCall], [send], [receive], [Call]).
    [registerCall] does not look at [shutdown]: on a client whose read
    loop has ended, [Call] still registers its call and writes the
    request.  The call then stays pending with an empty [Done] channel:
    no pass of [receive] is left to complete it, so only the context of
    the [Call] can end the wait. *)
Theorem client_call_after_shutdown_waits
    (c : Client) (serviceMethod args reply : string) :
  shutdown c = true →
  sending c = None →
  ∃ c1 c2,
    Call_Go serviceMethod args reply c = Next c1
    ∧ send_written None c1 = Next c2
    ∧ pending c2 !! seq c = Some (length (calls c))
    ∧ Call_recvDone (length (calls c)) c2 = None
    ∧ (∀ hr br, receive hr br c2 = Next c2)
    ∧ (∀ ctxErr,
         fst (Call_ctxDone (length (calls c)) ctxErr c2)
         = "rpc client: call failed: " ++ ctxErr).
Proof.
  intros Hsh Hsd. unfold Call_Go. rewrite Go_registers by done.
  eexists. eexists. split; [reflexivity|].
  unfold send_written. simpl.
  rewrite lookup_app_r, Nat.sub_diag by lia. simpl.
  split; [reflexivity|]. simpl. split; [by apply lookup_insert_eq|].
  split; [|split].
  - unfold Call_recvDone. simpl.
    by rewrite lookup_app_r, Nat.sub_diag by lia.
  - intros hr br. unfold receive. simpl. by rewrite Hsh.
  - intros ctxErr. unfold Call_ctxDone. simpl.
    by rewrite lookup_app_r, Nat.sub_diag by lia.
Qed.

Lemma client_call_after_shutdown_waits_witness :
  ∃ c1 c2,
    Call_Go "Foo.Sum" "1" "0"
      (client_after [EvReceive (HeaderErr "EOF") (BodyErr "EOF")]) = Next c1
    ∧ send_written None c1 = Next c2
    ∧ pending c2
        !! seq (client_after [EvReceive (HeaderErr "EOF") (BodyErr "EOF")])
      = Some (length (calls (client_after
                               [EvReceive (HeaderErr "EOF") (BodyErr "EOF")])))
    ∧ Call_recvDone
        (length (calls (client_after
                          [EvReceive (HeaderErr "EOF") (BodyErr "EOF")]))) c2
      = None
    ∧ (∀ hr br, receive hr br c2 = Next c2)
    ∧ (∀ ctxErr,
         fst (Call_ctxDone
                (length (calls (client_after
                                  [EvReceive (HeaderErr "EOF") (BodyErr "EOF")])))
                ctxErr c2)
         = "rpc client: call failed: " ++ ctxErr).
Proof.
  apply (client_call_after_shutdown_waits
           (client_after [EvReceive (HeaderErr "EOF") (BodyErr "EOF")])
           "Foo.Sum" "1" "0").
  - reflexivity.
  - reflexivity.
Defined.

End ClientMore.
